(** * The music compositor pipeline of [music_compositor_agent_langgraph.ipynb]

    A shallow embedding of the notebook's five stage functions, of the linear
    LangGraph workflow that chains them, and of the deterministic tables and
    loops inside [midi_converter].

    The graph is run the way the langgraph release of the notebook's
    stored traceback runs a [StateGraph] over a [TypedDict]: the state
    holds declared fields only, an input without any of them is rejected,
    and what a node returns is merged into the state key by key.

    External collaborators are parameters of the development:
    - the process-global generator behind [random.choice] (class [RandomGen]);
    - the chat model behind [prompt | llm] (a function from requests to
      answers or raised exceptions);
    - music21's MIDI writer (a function from the assembled stream to bytes);
    - the operating system's temporary-file naming. *)

From Stdlib Require Import ZArith String Ascii List Lia Bool.
From Stdlib.Init Require Import Byte.
From stdpp Require Import base option list strings gmap.

Local Open Scope string_scope.

(** ** Python strings (ASCII fragment) *)

Module PyStr.

(** [c.lower()] for one character: only 'A'..'Z' change. *)
Definition lower_ascii (c : ascii) : ascii :=
  let n := nat_of_ascii c in
  if (65 <=? n)%nat && (n <=? 90)%nat then ascii_of_nat (n + 32) else c.

(** [s.lower()]. *)
Fixpoint lower (s : string) : string :=
  match s with
  | EmptyString => EmptyString
  | String c s' => String (lower_ascii c) (lower s')
  end.

(** [needle in hay] for strings. *)
Fixpoint contains (needle hay : string) : bool :=
  String.prefix needle hay ||
  match hay with
  | EmptyString => false
  | String _ hay' => contains needle hay'
  end.

(** The characters [str.split()] treats as separators. *)
Definition is_space (c : ascii) : bool :=
  let n := nat_of_ascii c in
  (n =? 32)%nat || ((9 <=? n)%nat && (n <=? 13)%nat)
                || ((28 <=? n)%nat && (n <=? 31)%nat).

(** [s.split()] with no argument: maximal runs of non-separators.
    [cur] is the word being read, in reverse. *)
Fixpoint split_go (cur : option string) (s : string) : list string :=
  match s with
  | EmptyString =>
      match cur with
      | None => []
      | Some w => [String.rev w]
      end
  | String c s' =>
      if is_space c then
        match cur with
        | None => split_go None s'
        | Some w => String.rev w :: split_go None s'
        end
      else
        split_go (Some (String c (default EmptyString cur))) s'
  end.

Definition split (s : string) : list string := split_go None s.

End PyStr.

(** ** Values, exceptions and the effect monad *)

(** What a state dictionary can hold. The [TypedDict] annotates every
    field as [str]; Python does not enforce it, and callers also pass
    integers. *)
Inductive value :=
| VStr (s : string)
| VInt (n : Z).

(** The exceptions the modelled code can raise. [InvalidUpdateError] and
    [GraphRecursionError] are the graph engine's own; [External] stands
    for whatever the chat-model client raises. *)
Inductive exn :=
| KeyError (key : string)
| IndexError
| AttributeError (attr : string)
| InvalidUpdateError
| GraphRecursionError
| External (cls : string) (msg : string).

(** The Python class name of an exception. *)
Definition exn_class (e : exn) : string :=
  match e with
  | KeyError _ => "KeyError"
  | IndexError => "IndexError"
  | AttributeError _ => "AttributeError"
  | InvalidUpdateError => "InvalidUpdateError"
  | GraphRecursionError => "GraphRecursionError"
  | External cls _ => cls
  end.

Inductive result (A : Type) :=
| Ok (a : A)
| Err (e : exn).
Arguments Ok {A} a.
Arguments Err {A} e.

(** State-and-exception monad: the state reached when the exception was
    raised is kept, so that one can say what had happened before. *)
Definition M (S A : Type) : Type := S -> result A * S.

Definition ret {S A} (a : A) : M S A := fun s => (Ok a, s).

Definition bind {S A B} (m : M S A) (k : A -> M S B) : M S B :=
  fun s =>
    match m s with
    | (Ok a, s') => k a s'
    | (Err e, s') => (Err e, s')
    end.

Definition raise {S A} (e : exn) : M S A := fun s => (Err e, s).

#[export] Instance M_ret {S} : MRet (M S) := fun A a => ret a.
#[export] Instance M_bind {S} : MBind (M S) := fun A B k m => bind m k.

(** [for _ in range(n): acc.append(body())]. *)
Fixpoint repeatM {S A} (n : nat) (body : M S A) : M S (list A) :=
  match n with
  | O => ret []
  | S n' => x ← body; xs ← repeatM n' body; ret (x :: xs)
  end.

(** A dictionary literal, in insertion order. *)
Definition pydict (V : Type) : Type := list (string * V).

Definition keys {V} (d : pydict V) : list string := map fst d.

Fixpoint dict_find {V} (d : pydict V) (k : string) : option V :=
  match d with
  | [] => None
  | (k', v) :: d' => if String.eqb k' k then Some v else dict_find d' k
  end.

(** [d[k]]. *)
Definition dict_get {S V} (d : pydict V) (k : string) : M S V :=
  match dict_find d k with
  | Some v => ret v
  | None => raise (KeyError k)
  end.

(** [l[i]] for a non-negative index. *)
Definition list_get {S A} (l : list A) (i : nat) : M S A :=
  match nth_error l i with
  | Some x => ret x
  | None => raise IndexError
  end.

(** [class MusicState(TypedDict)]: the state dictionary of the workflow.
    Its declared fields are musician_input, melody, harmony, rhythm, style,
    composition and midi_file; a [TypedDict] is an ordinary dictionary at
    run time, so any of them can be absent. *)
Abbreviation MusicState := (gmap string value).

(** The fields the class declares, in its order. *)
Definition MusicState_fields : list string :=
  ["musician_input"; "melody"; "harmony"; "rhythm"; "style"; "composition";
   "midi_file"].

(** The entries a dictionary holds under the given keys. *)
Fixpoint restrict (ks : list string) (d : gmap string value)
  : gmap string value :=
  match ks with
  | [] => ∅
  | k :: ks' =>
      match d !! k with
      | Some v => <[k := v]> (restrict ks' d)
      | None => restrict ks' d
      end
  end.

(** Whether a dictionary holds none of the given keys. *)
Definition holds_none (ks : list string) (d : gmap string value) : bool :=
  forallb (fun k => match d !! k with None => true | Some _ => false end) ks.

(** [state[k]] on the state dictionary. *)
Definition getitem {S} (state : MusicState) (k : string) : M S value :=
  match state !! k with
  | Some v => ret v
  | None => raise (KeyError k)
  end.

(** [v.lower()]: only strings have the method. *)
Definition str_lower {S} (v : value) : M S string :=
  match v with
  | VStr s => ret (PyStr.lower s)
  | VInt _ => raise (AttributeError "lower")
  end.

(** ** The random module *)

(** The generator behind [random.choice]: [randbelow g n] draws from
    [range(n)]; [seed] is the state [random.seed] installs. *)
Class RandomGen (G : Type) := {
  randbelow : G -> nat -> nat * G;
  seed : Z -> G;
  randbelow_lt : forall g n, (0 < n)%nat -> (fst (randbelow g n) < n)%nat
}.

(** [random.choice(seq)]. *)
Definition choice {G} `{RandomGen G} {A} (seq : list A) : M G A :=
  fun g =>
    match seq with
    | [] => (Err IndexError, g)
    | _ :: _ =>
        let (i, g') := randbelow g (length seq) in
        list_get seq i g'
    end.

(** A generator that replays a fixed list of draws (reduced into range),
    used to run the model on concrete inputs. *)
Definition replay_randbelow (g : list nat) (n : nat) : nat * list nat :=
  match g with
  | [] => (0%nat, [])
  | x :: g' => ((x mod n)%nat, g')
  end.

#[export] Instance replay_gen : RandomGen (list nat).
Proof.
  refine {| randbelow := replay_randbelow; seed := fun s => [Z.to_nat s] |}.
  intros g n Hn. destruct g as [|x g']; simpl; [exact Hn|].
  apply Nat.mod_upper_bound. lia.
Defined.

(** ** music21 objects, as far as the notebook builds them *)

Module music21.

(** [note.Note(name)] with its [quarterLength]. *)
Record Note := { note_name : string; note_quarterLength : nat }.

(** [chord.Chord(pitches)] with its [quarterLength]. *)
Record Chord := { chord_pitches : list string; chord_quarterLength : nat }.

(** What the notebook appends to a [stream.Part]. *)
Inductive event :=
| ENote (n : Note)
| EChord (c : Chord).

(** What the notebook puts into the score. A [Part] holds the events
    appended to it, in order. *)
Inductive element :=
| TextExpression (content : value)
| MetronomeMark (number : nat)
| Part (events : list event).

(** [stream.append(x)] puts [x] at the end, [stream.insert(o, x)] at
    offset [o]. *)
Inductive placement :=
| AtEnd
| AtOffset (offset : nat).

(** [stream.Score()]: the calls made on it, in order. *)
Definition Score : Type := list (placement * element).

Definition append (x : element) (s : Score) : Score :=
  (s ++ [(AtEnd, x)])%list.

Definition insert (o : nat) (x : element) (s : Score) : Score :=
  (s ++ [(AtOffset o, x)])%list.

(** The duration of an event, in quarter notes (beats). *)
Definition quarterLength (e : event) : nat :=
  match e with
  | ENote n => note_quarterLength n
  | EChord c => chord_quarterLength c
  end.

(** The parts of a score, in order. *)
Fixpoint parts (s : Score) : list (list event) :=
  match s with
  | [] => []
  | (_, Part es) :: s' => es :: parts s'
  | _ :: s' => parts s'
  end.

(** The tempo markings of a score. *)
Fixpoint tempos (s : Score) : list nat :=
  match s with
  | [] => []
  | (_, MetronomeMark n) :: s' => n :: tempos s'
  | _ :: s' => tempos s'
  end.

End music21.
Import music21.

(** ** The tables of [midi_converter] *)

Definition scales : pydict (list string) :=
  [ ("C major",          ["C"; "D"; "E"; "F"; "G"; "A"; "B"]);
    ("C minor",          ["C"; "D"; "Eb"; "F"; "G"; "Ab"; "Bb"]);
    ("C harmonic minor", ["C"; "D"; "Eb"; "F"; "G"; "Ab"; "B"]);
    ("C melodic minor",  ["C"; "D"; "Eb"; "F"; "G"; "A"; "B"]);
    ("C dorian",         ["C"; "D"; "Eb"; "F"; "G"; "A"; "Bb"]);
    ("C phrygian",       ["C"; "Db"; "Eb"; "F"; "G"; "Ab"; "Bb"]);
    ("C lydian",         ["C"; "D"; "E"; "F#"; "G"; "A"; "B"]);
    ("C mixolydian",     ["C"; "D"; "E"; "F"; "G"; "A"; "Bb"]);
    ("C locrian",        ["C"; "Db"; "Eb"; "F"; "Gb"; "Ab"; "Bb"]);
    ("C whole tone",     ["C"; "D"; "E"; "F#"; "G#"; "A#"]);
    ("C diminished",     ["C"; "D"; "Eb"; "F"; "Gb"; "Ab"; "A"; "B"]) ].

Definition chords : pydict (list string) :=
  [ ("C major",                ["C4"; "E4"; "G4"]);
    ("C minor",                ["C4"; "Eb4"; "G4"]);
    ("C diminished",           ["C4"; "Eb4"; "Gb4"]);
    ("C augmented",            ["C4"; "E4"; "G#4"]);
    ("C dominant 7th",         ["C4"; "E4"; "G4"; "Bb4"]);
    ("C major 7th",            ["C4"; "E4"; "G4"; "B4"]);
    ("C minor 7th",            ["C4"; "Eb4"; "G4"; "Bb4"]);
    ("C half-diminished 7th",  ["C4"; "Eb4"; "Gb4"; "Bb4"]);
    ("C fully diminished 7th", ["C4"; "Eb4"; "Gb4"; "A4"]) ].

(** The name [midi_converter] looks the final chord up under:
    [scale_name.split()[0] + ' ' + scale_name.split()[1]]. *)
Definition final_chord_name {S} (scale_name : string) : M S string :=
  w0 ← list_get (PyStr.split scale_name) 0;
  w1 ← list_get (PyStr.split scale_name) 1;
  ret (w0 +:+ " " +:+ w1).

(** ** The encoder's musical material *)

Section Encoder.

Context {G : Type} `{RandomGen G}.

(** [create_melody(scale_name, duration)]. *)
Definition create_melody (scale_name : string) (duration : nat)
  : M G (list event) :=
  scale ← dict_get scales scale_name;
  repeatM duration
    (pc ← choice scale;
     ret (ENote {| note_name := pc +:+ "4"; note_quarterLength := 1 |})).

(** [create_chord_progression(duration)]. *)
Definition create_chord_progression (duration : nat) : M G (list event) :=
  repeatM duration
    (chord_name ← choice (keys chords);
     pitches ← dict_get chords chord_name;
     ret (EChord {| chord_pitches := pitches; chord_quarterLength := 1 |})).

(** The [if 'minor' in user_input / elif 'major' / else] branch. *)
Definition select_scale (user_input : string) : M G string :=
  if PyStr.contains "minor" user_input then ret "C minor"
  else if PyStr.contains "major" user_input then ret "C major"
  else choice (keys scales).

(** The melody and harmony parts of one run, final beat included. *)
Definition compose_parts (scale_name : string)
  : M G (list event * list event) :=
  melody ← create_melody scale_name 7;
  harmony ← create_chord_progression 7;
  scale ← dict_get scales scale_name;
  root ← list_get scale 0;
  let final_note :=
    ENote {| note_name := root +:+ "4"; note_quarterLength := 1 |} in
  let melody := (melody ++ [final_note])%list in
  name ← final_chord_name scale_name;
  pitches ← dict_get chords name;
  let final_chord :=
    EChord {| chord_pitches := pitches; chord_quarterLength := 1 |} in
  let harmony := (harmony ++ [final_chord])%list in
  ret (melody, harmony).

(** The body of [midi_converter] up to the tempo insertion: the score
    that is then handed to the MIDI writer. *)
Definition midi_converter_piece (state : MusicState) : M G Score :=
  let piece : Score := [] in
  content ← getitem state "composition";
  let piece := append (TextExpression content) piece in
  v ← getitem state "musician_input";
  user_input ← str_lower v;
  scale_name ← select_scale user_input;
  '(melody, harmony) ← compose_parts scale_name;
  let piece := append (Part melody) piece in
  let piece := append (Part harmony) piece in
  let piece := insert 0 (MetronomeMark 60) piece in
  ret piece.

End Encoder.

(** ** The process: generator, chat model, file system *)

(** One call of [chain.invoke]: the prompt template and the values
    substituted into it. *)
Record request := { template : string; arguments : list (string * value) }.

(** The prompt templates of the four generative stages. *)
Definition melody_template : string :=
  "Create a melody that reflects the sentiment and style of this input: {input}. Format it in music21 notation.".

Definition harmony_template : string :=
  "Create harmony for this melody: {melody}. Represent it as a string of chords in music21 format.".

Definition rhythm_template : string :=
  "Analyze and suggest a rhythm for this melody and harmony: {melody}, {harmony}. Represent it as a string of durations in music21 format.".

Definition style_template : string :=
  "Adapt this composition to the {style} style: Melody: {melody}, Harmony: {harmony}, Rhythm: {rhythm}. Provide the result in music21 format.".

Section Pipeline.

Context {G : Type} `{RandomGen G}.

(** The chat model: an answer, or the exception its client raises. *)
Variable llm : request -> result string.

(** music21's MIDI writer, [piece.write('midi', ...)]. *)
Variable midi_write : Score -> list byte.

(** The name the operating system gives the [n]-th temporary file
    with a given suffix. *)
Variable tmp_name : nat -> string -> string.

(** What a run can observe and change. [calls] logs the requests sent to
    the chat model, most recent first. *)
Record world := {
  rng : G;
  calls : list request;
  files : gmap string (list byte);
  tmp_count : nat
}.

(** Code that only draws random numbers, run inside the process. *)
Definition with_random {A} (m : M G A) : M world A :=
  fun w =>
    let (r, g) := m (rng w) in
    (r, {| rng := g; calls := calls w; files := files w;
           tmp_count := tmp_count w |}).

(** [(prompt | llm).invoke(arguments).content]. The request is logged
    whether or not the model answers. *)
Definition log_call (rq : request) (w : world) : world :=
  {| rng := rng w; calls := rq :: calls w; files := files w;
     tmp_count := tmp_count w |}.

Definition chain_invoke (tpl : string) (args : list (string * value))
  : M world string :=
  fun w =>
    let rq := {| template := tpl; arguments := args |} in
    (llm rq, log_call rq w).

(** The outcome of a stage that sends [rq] and returns the answer
    under [key]. *)
Definition answer (rq : request) (key : string) (w : world)
  : result (gmap string value) * world :=
  match llm rq with
  | Ok a => (Ok {[ key := VStr a ]}, log_call rq w)
  | Err e => (Err e, log_call rq w)
  end.

(** [tempfile.NamedTemporaryFile(delete=False, suffix=...)]: a new,
    empty file; its name. *)
Definition NamedTemporaryFile (suffix : string) : M world string :=
  fun w =>
    let name := tmp_name (tmp_count w) suffix in
    (Ok name, {| rng := rng w; calls := calls w;
                 files := <[name := []]> (files w);
                 tmp_count := S (tmp_count w) |}).

(** [piece.write('midi', name)]. *)
Definition write_midi (piece : Score) (name : string) : M world unit :=
  fun w =>
    (Ok tt, {| rng := rng w; calls := calls w;
               files := <[name := midi_write piece]> (files w);
               tmp_count := tmp_count w |}).

(** ** The stage functions *)

Definition melody_generator (state : MusicState)
  : M world (gmap string value) :=
  input ← getitem state "musician_input";
  melody ← chain_invoke
    melody_template
    [("input", input)];
  ret {[ "melody" := VStr melody ]}.

Definition harmony_creator (state : MusicState)
  : M world (gmap string value) :=
  melody ← getitem state "melody";
  harmony ← chain_invoke
    harmony_template
    [("melody", melody)];
  ret {[ "harmony" := VStr harmony ]}.

Definition rhythm_analyzer (state : MusicState)
  : M world (gmap string value) :=
  melody ← getitem state "melody";
  harmony ← getitem state "harmony";
  rhythm ← chain_invoke
    rhythm_template
    [("melody", melody); ("harmony", harmony)];
  ret {[ "rhythm" := VStr rhythm ]}.

Definition style_adapter (state : MusicState)
  : M world (gmap string value) :=
  style ← getitem state "style";
  melody ← getitem state "melody";
  harmony ← getitem state "harmony";
  rhythm ← getitem state "rhythm";
  adapted ← chain_invoke
    style_template
    [("style", style); ("melody", melody); ("harmony", harmony);
     ("rhythm", rhythm)];
  ret {[ "composition" := VStr adapted ]}.

Definition midi_converter (state : MusicState)
  : M world (gmap string value) :=
  piece ← with_random (midi_converter_piece state);
  temp_midi ← NamedTemporaryFile ".mid";
  write_midi piece temp_midi;;
  ret {[ "midi_file" := VStr temp_midi ]}.

(** ** The LangGraph workflow *)

Definition node : Type := MusicState -> M world (gmap string value).

Definition END : string := "__end__".

(** [StateGraph]: the fields of the state class it was made for, and the
    nodes, the entry point and the edges, each in the order they were
    added. *)
Record StateGraph := {
  schema : list string;
  nodes : pydict node;
  entry_point : option string;
  edges : pydict string
}.

(** [StateGraph(state_class)]. *)
Definition empty_graph (fields : list string) : StateGraph :=
  {| schema := fields; nodes := []; entry_point := None; edges := [] |}.

Definition add_node (name : string) (f : node) (g : StateGraph) : StateGraph :=
  {| schema := schema g; nodes := (nodes g ++ [(name, f)])%list;
     entry_point := entry_point g; edges := edges g |}.

Definition set_entry_point (name : string) (g : StateGraph) : StateGraph :=
  {| schema := schema g; nodes := nodes g; entry_point := Some name;
     edges := edges g |}.

Definition add_edge (a b : string) (g : StateGraph) : StateGraph :=
  {| schema := schema g; nodes := nodes g; entry_point := entry_point g;
     edges := (edges g ++ [(a, b)])%list |}.

(** The graph the notebook builds, call by call. *)
Definition workflow : StateGraph :=
  add_edge "midi_converter" END
  (add_edge "style_adapter" "midi_converter"
  (add_edge "rhythm_analyzer" "style_adapter"
  (add_edge "harmony_creator" "rhythm_analyzer"
  (add_edge "melody_generator" "harmony_creator"
  (set_entry_point "melody_generator"
  (add_node "midi_converter" midi_converter
  (add_node "style_adapter" style_adapter
  (add_node "rhythm_analyzer" rhythm_analyzer
  (add_node "harmony_creator" harmony_creator
  (add_node "melody_generator" melody_generator
   (empty_graph MusicState_fields))))))))))).

(** The default bound on the number of steps of one run. *)
Definition recursion_limit : nat := 25.

(** The graph's first step, before any node runs, in the langgraph
    release of the traceback the notebook stores: the entries of the input
    under the fields of the state class become the state, every other
    entry is dropped, and an input that holds none of the fields is
    rejected. *)
Definition start_node (g : StateGraph) (inputs : gmap string value)
  : M world MusicState :=
  if holds_none (schema g) inputs then raise InvalidUpdateError
  else ret (restrict (schema g) inputs).

(** One run from node [name]: call the node on the current state, merge
    the entries of the dictionary it returns that are fields of the state
    class into the state (its keys win), go on with the node the edge
    points to. The result lists the state after each step. *)
Fixpoint run_from (fuel : nat) (g : StateGraph) (name : string)
    (state : MusicState) : M world (list MusicState) :=
  if String.eqb name END then ret []
  else
    match fuel with
    | O => raise GraphRecursionError
    | S fuel' =>
        f ← dict_get (nodes g) name;
        update ← f state;
        let state' := restrict (schema g) update ∪ state in
        match dict_find (edges g) name with
        | None => ret [state']
        | Some next =>
            rest ← run_from fuel' g next state';
            ret (state' :: rest)
        end
    end.

(** [app.stream(inputs, stream_mode="values")]: the state the first
    step makes of the input, then the state after each node. *)
Definition stream (g : StateGraph) (inputs : gmap string value)
  : M world (list MusicState) :=
  state ← start_node g inputs;
  match entry_point g with
  | None => ret [state]
  | Some name =>
      rest ← run_from recursion_limit g name state;
      ret (state :: rest)
  end.

(** [app.invoke(inputs)]: the last state of the stream. *)
Definition invoke (g : StateGraph) (inputs : gmap string value)
  : M world MusicState :=
  chunks ← stream g inputs;
  ret (List.last chunks inputs).

(** [app = workflow.compile()]. *)
Definition app : gmap string value -> M world MusicState :=
  invoke workflow.

End Pipeline.

Arguments world : clear implicits.

(** ** Stand-ins for the external collaborators

    Used only to run the model on concrete inputs. *)

(** A chat model that always answers. *)
Definition stub_llm (rq : request) : result string :=
  Ok ("answer to: " +:+ template rq).

(** A writer that emits one byte per element of the score. *)
Definition stub_write (sc : Score) : list byte := repeat x00 (length sc).

(** Temporary names [/tmp/tmp.mid], [/tmp/tmpa.mid], [/tmp/tmpaa.mid], ... *)
Definition stub_tmp (n : nat) (suffix : string) : string :=
  "/tmp/tmp" +:+ string_of_list_ascii (repeat "a"%char n) +:+ suffix.

(** A fresh process whose generator replays the draws [g]. *)
Definition start (g : list nat) : world (list nat) :=
  {| rng := g; calls := []; files := ∅; tmp_count := 0 |}.

(** Encoder inputs used in the examples: a composition text and the
    musician's request. *)
Definition encoder_state (musician_input : string) : MusicState :=
  {[ "composition" := VStr "tinyNotation: 4/4 c4 d e f";
     "musician_input" := VStr musician_input ]}.

(** The inputs of the notebook's own run. *)
Definition notebook_inputs : MusicState :=
  {[ "musician_input" := VStr "Create a happy piano piece in C major";
     "style" := VStr "Romantic era" ]}.

(** The keys the five stages write, in pipeline order. *)
Definition stage_keys : list string :=
  ["melody"; "harmony"; "rhythm"; "composition"; "midi_file"].

(** The encoder's fixed length in beats: seven sampled beats and the
    final one. *)
Definition target_duration : nat := 7 + 1.

(** A note of one beat on a pitch class of [scale], in octave 4. *)
Definition scale_note (scale : list string) (e : event) : Prop :=
  exists pc, In pc scale /\
    e = ENote {| note_name := pc +:+ "4"; note_quarterLength := 1 |}.

(** A chord of one beat whose pitches are an entry of the chord table. *)
Definition table_chord (e : event) : Prop :=
  exists name pitches, dict_find chords name = Some pitches /\
    e = EChord {| chord_pitches := pitches; chord_quarterLength := 1 |}.

(** The score [midi_converter] assembles from its four ingredients. *)
Definition assemble (content : value) (melody harmony : list event) : Score :=
  [ (AtEnd, TextExpression content); (AtEnd, Part melody);
    (AtEnd, Part harmony); (AtOffset 0, MetronomeMark 60) ].

(** The outcome of the final-beat chord lookup for a scale name. *)
Definition final_chord_lookup (scale_name : string) : result (list string) :=
  fst ((name ← final_chord_name scale_name; dict_get chords name) tt).

(** ** Vocabulary for the further properties *)

(** The generator state after drawing from ranges of the given sizes, one
    after the other, and the indices drawn on the way. *)
Fixpoint draws {G} `{RandomGen G} (sizes : list nat) (g : G) : G :=
  match sizes with
  | [] => g
  | n :: sizes' => draws sizes' (snd (randbelow g n))
  end.

Fixpoint drawn {G} `{RandomGen G} (sizes : list nat) (g : G) : list nat :=
  match sizes with
  | [] => []
  | n :: sizes' => fst (randbelow g n) :: drawn sizes' (snd (randbelow g n))
  end.

(** The note [create_melody] builds from a pitch class. *)
Definition melody_note (pc : string) : event :=
  ENote {| note_name := pc +:+ "4"; note_quarterLength := 1 |}.

(** The chord [create_chord_progression] builds from a list of pitches. *)
Definition harmony_chord (pitches : list string) : event :=
  EChord {| chord_pitches := pitches; chord_quarterLength := 1 |}.

(** A non-empty string without separators: what [str.split()] returns. *)
Fixpoint no_space (w : string) : bool :=
  match w with
  | EmptyString => true
  | String c w' => negb (PyStr.is_space c) && no_space w'
  end.

Definition is_word (w : string) : bool :=
  negb (String.eqb w "") && no_space w.

(** What a stage reads from the state, in the order it reads it, and the
    key it returns. *)
Record contract := { reads : list string; writes : string }.

Section Contracts.

Context {G : Type} `{RandomGen G}.
Variable llm : request -> result string.
Variable midi_write : Score -> list byte.
Variable tmp_name : nat -> string -> string.

(** The four stages that call the chat model. *)
Definition generative_stages : list (@node G * contract) :=
  [ (melody_generator llm,
     {| reads := ["musician_input"]; writes := "melody" |});
    (harmony_creator llm,
     {| reads := ["melody"]; writes := "harmony" |});
    (rhythm_analyzer llm,
     {| reads := ["melody"; "harmony"]; writes := "rhythm" |});
    (style_adapter llm,
     {| reads := ["style"; "melody"; "harmony"; "rhythm"];
        writes := "composition" |}) ].

(** All five, in the order of the workflow. *)
Definition stages : list (@node G * contract) :=
  (generative_stages ++
   [ (midi_converter midi_write tmp_name,
      {| reads := ["composition"; "musician_input"];
         writes := "midi_file" |}) ])%list.

End Contracts.

(** The first key of a list that a state lacks. *)
Fixpoint first_missing (state : MusicState) (ks : list string)
  : option string :=
  match ks with
  | [] => None
  | k :: ks' =>
      match state !! k with
      | None => Some k
      | Some _ => first_missing state ks'
      end
  end.

(** The request each generative stage sends, from the values it read. *)
Definition melody_request (input : value) : request :=
  {| template := melody_template; arguments := [("input", input)] |}.

Definition harmony_request (melody : value) : request :=
  {| template := harmony_template; arguments := [("melody", melody)] |}.

Definition rhythm_request (melody harmony : value) : request :=
  {| template := rhythm_template;
     arguments := [("melody", melody); ("harmony", harmony)] |}.

Definition style_request (style melody harmony rhythm : value) : request :=
  {| template := style_template;
     arguments := [("style", style); ("melody", melody);
                   ("harmony", harmony); ("rhythm", rhythm)] |}.

(** The state the encoder is called on: the initial state with the four
    answers merged in. *)
Definition generated (initial : MusicState)
    (melody harmony rhythm composition : string) : MusicState :=
  <["composition" := VStr composition]>
    (<["rhythm" := VStr rhythm]>
       (<["harmony" := VStr harmony]>
          (<["melody" := VStr melody]> initial))).

(** The scales whose final chord the chord table lacks, and those whose
    final chord it has. *)
Definition scales_without_chord : list string :=
  ["C harmonic minor"; "C melodic minor"; "C dorian"; "C phrygian";
   "C lydian"; "C mixolydian"; "C locrian"; "C whole tone"].

Definition scales_with_chord : list string :=
  ["C major"; "C minor"; "C diminished"].

(** The templates of the four requests of a run, oldest first. *)
Definition stage_templates : list string :=
  [melody_template; harmony_template; rhythm_template; style_template].

(** The ways a run of the workflow can fail, and what each means for the
    exception [e] that comes out of a run from [w] on [inputs] that ends
    in [w']. *)
Inductive failure :=
| NoDeclaredField
| NoMusicianInput
| ModelRaised
| NoStyle
| EncoderRaised.

Definition failed_as {G} (llm : request -> result string)
    (inputs : gmap string value) (w w' : world G) (e : exn) (f : failure)
  : Prop :=
  match f with
  | NoDeclaredField =>
      e = InvalidUpdateError /\
      (forall k, k ∈ MusicState_fields -> inputs !! k = None) /\ w' = w
  | NoMusicianInput =>
      e = KeyError "musician_input" /\
      inputs !! "musician_input" = None /\
      (exists k, k ∈ MusicState_fields /\ is_Some (inputs !! k)) /\ w' = w
  | ModelRaised =>
      exists rq rest,
        calls w' = rq :: rest /\ llm rq = Err e /\
        (length (calls w) < length (calls w') <= 4 + length (calls w))%nat
  | NoStyle =>
      e = KeyError "style" /\ inputs !! "style" = None /\
      length (calls w') = (3 + length (calls w))%nat /\
      exists rq rest a, calls w' = rq :: rest /\ llm rq = Ok a
  | EncoderRaised =>
      length (calls w') = (4 + length (calls w))%nat /\
      (exists rq rest a, calls w' = rq :: rest /\ llm rq = Ok a) /\
      ((e = AttributeError "lower" /\
        exists n, inputs !! "musician_input" = Some (VInt n)) \/
       (exists name, In name scales_without_chord /\
                     final_chord_lookup name = Err e))
  end.

(** * Properties *)

(** ** The model on concrete inputs *)

Example split_scale_name :
  PyStr.split "C harmonic minor" = ["C"; "harmonic"; "minor"].
Proof. reflexivity. Qed.

Example split_collapses_blanks :
  PyStr.split "  C   whole	tone " = ["C"; "whole"; "tone"].
Proof. reflexivity. Qed.

Example lower_leaves_non_letters :
  PyStr.lower "In C MAJOR (op. 7)!" = "in c major (op. 7)!".
Proof. reflexivity. Qed.

Example contains_is_substring_search :
  PyStr.contains "minor" "a-minor-ish" = true /\
  PyStr.contains "minor" "min or" = false /\
  PyStr.contains "" "" = true.
Proof. by repeat split. Qed.

(** The notebook's own inputs, with a chat model that answers: the run
    completes, sends four requests and leaves one file behind, whose name
    is the value of [midi_file]. *)
Example notebook_run :
  let '(r, w) :=
    app stub_llm stub_write stub_tmp notebook_inputs (start []) in
  (match r with
   | Ok final => final !! "midi_file"
   | Err _ => None
   end) = Some (VStr "/tmp/tmp.mid") /\
  length (calls w) = 4%nat /\
  files w !! "/tmp/tmp.mid" = Some [x00; x00; x00; x00] /\
  tmp_count w = 1%nat.
Proof. vm_compute. by repeat split. Qed.

(** A request that names no key, with the generator drawing index 4: the
    scale is 'C dorian' and the run ends in [midi_converter]. *)
Example dorian_run :
  let '(r, w) :=
    app stub_llm stub_write stub_tmp
        {[ "musician_input" := VStr "Something jazzy";
           "style" := VStr "Bebop" ]} (start [4%nat]) in
  (match r with
   | Ok _ => None
   | Err e => Some e
   end) = Some (KeyError "C dorian") /\
  length (calls w) = 4%nat /\
  tmp_count w = 0%nat.
Proof. vm_compute. by repeat split. Qed.

(** An input that holds no field of the state class is rejected before
    any stage runs. *)
Example empty_input_run :
  app stub_llm stub_write stub_tmp ∅ (start [])
  = (Err InvalidUpdateError, start []).
Proof. reflexivity. Qed.

(** An entry under a key that is no field of the state class is dropped:
    the run is the notebook's, and its result has no such entry. *)
Example undeclared_key_run :
  let '(r, w) :=
    app stub_llm stub_write stub_tmp
        (<["tempo" := VInt 90]> notebook_inputs) (start []) in
  (match r with
   | Ok final => (final !! "tempo", final !! "style", final !! "midi_file")
   | Err _ => (None, None, None)
   end) = (None, Some (VStr "Romantic era"), Some (VStr "/tmp/tmp.mid")) /\
  length (calls w) = 4%nat.
Proof. vm_compute. by repeat split. Qed.

(** ** The monad *)

Section MonadFacts.

Context {S A B : Type}.

Lemma bind_Ok (m : M S A) (k : A -> M S B) s a s' :
  m s = (Ok a, s') -> (m ≫= k) s = k a s'.
Proof. intros Hm. unfold mbind, M_bind, bind. by rewrite Hm. Qed.

Lemma bind_Err (m : M S A) (k : A -> M S B) s e s' :
  m s = (Err e, s') -> (m ≫= k) s = (Err e, s').
Proof. intros Hm. unfold mbind, M_bind, bind. by rewrite Hm. Qed.

Lemma bind_inv_Ok (m : M S A) (k : A -> M S B) s b s2 :
  (m ≫= k) s = (Ok b, s2) ->
  exists a s1, m s = (Ok a, s1) /\ k a s1 = (Ok b, s2).
Proof.
  unfold mbind, M_bind, bind. destruct (m s) as [[a|e] s1]; intros Hk.
  - by exists a, s1.
  - discriminate.
Qed.

End MonadFacts.

(** A loop whose body always succeeds with a result satisfying [P]
    runs to the end and collects [n] such results. *)
Lemma repeatM_total {S A} (P : A -> Prop) (body : M S A) :
  (forall s, exists a s', body s = (Ok a, s') /\ P a) ->
  forall n s, exists xs s',
    repeatM n body s = (Ok xs, s') /\ length xs = n /\ Forall P xs.
Proof.
  intros Hbody. induction n as [|n IH]; intros s.
  - exists [], s. by repeat split.
  - destruct (Hbody s) as (a & s1 & Ha & HP).
    destruct (IH s1) as (xs & s2 & Hxs & Hlen & Hall).
    exists (a :: xs), s2. cbn [repeatM].
    rewrite (bind_Ok _ _ _ _ _ Ha), (bind_Ok _ _ _ _ _ Hxs).
    repeat split; [simpl; by rewrite Hlen | by constructor].
Qed.

(** ** Dictionaries *)

Lemma dict_find_keys {V} (d : pydict V) (k : string) :
  In k (keys d) -> exists v, dict_find d k = Some v.
Proof.
  induction d as [|[k' v] d IH]; simpl; [done|].
  intros [->|Hin].
  - rewrite String.eqb_refl. by exists v.
  - destruct (String.eqb k' k); [by exists v | by apply IH].
Qed.

Lemma dict_get_Some {S V} (d : pydict V) k v (s : S) :
  dict_find d k = Some v -> dict_get d k s = (Ok v, s).
Proof. intros Hd. unfold dict_get. by rewrite Hd. Qed.

Lemma dict_get_None {S V} (d : pydict V) k (s : S) :
  dict_find d k = None -> dict_get d k s = (Err (KeyError k), s).
Proof. intros Hd. unfold dict_get. by rewrite Hd. Qed.

Lemma getitem_Some {S} (state : gmap string value) k v (s : S) :
  state !! k = Some v -> getitem state k s = (Ok v, s).
Proof. intros Hk. unfold getitem. by rewrite Hk. Qed.

Lemma getitem_None {S} (state : gmap string value) k (s : S) :
  state !! k = None -> getitem state k s = (Err (KeyError k), s).
Proof. intros Hk. unfold getitem. by rewrite Hk. Qed.

(** ** Random choices and the two loops *)

Section EncoderFacts.

Context {G : Type} `{RandomGen G}.

(** On a non-empty sequence [random.choice] returns the element at the
    drawn index. *)
Lemma choice_total {A} (seq : list A) (g : G) :
  seq <> [] ->
  exists x, choice seq g = (Ok x, snd (randbelow g (length seq))) /\
            nth_error seq (fst (randbelow g (length seq))) = Some x.
Proof.
  intros Hne. destruct seq as [|a seq']; [done|].
  unfold choice.
  pose proof (randbelow_lt g (length (a :: seq'))) as Hlt.
  destruct (randbelow g (length (a :: seq'))) as [i g'] eqn:Hr.
  simpl fst in *. simpl snd.
  assert (Hi : (i < length (a :: seq'))%nat) by (apply Hlt; simpl; lia).
  destruct (nth_error (a :: seq') i) as [x|] eqn:Hx.
  - exists x. unfold list_get. by rewrite Hx.
  - apply nth_error_None in Hx. lia.
Qed.

Lemma choice_In {A} (seq : list A) (g : G) :
  seq <> [] -> exists x g', choice seq g = (Ok x, g') /\ In x seq.
Proof.
  intros Hne. destruct (choice_total seq g Hne) as (x & Hc & Hx).
  exists x, (snd (randbelow g (length seq))).
  split; [done|]. by eapply nth_error_In.
Qed.

Lemma create_melody_total (scale_name : string) (scale : list string) :
  dict_find scales scale_name = Some scale -> scale <> [] ->
  forall duration g, exists notes g',
    create_melody scale_name duration g = (Ok notes, g') /\
    length notes = duration /\ Forall (scale_note scale) notes.
Proof.
  intros Hs Hne duration g. unfold create_melody.
  rewrite (bind_Ok _ _ _ _ _ (dict_get_Some _ _ _ g Hs)).
  apply repeatM_total. intros s.
  destruct (choice_In scale s Hne) as (pc & s' & Hc & Hin).
  eexists _, s'. rewrite (bind_Ok _ _ _ _ _ Hc). split; [done|].
  by exists pc.
Qed.

Lemma create_chord_progression_total (duration : nat) (g : G) :
  exists cs g',
    create_chord_progression duration g = (Ok cs, g') /\
    length cs = duration /\ Forall table_chord cs.
Proof.
  unfold create_chord_progression. apply repeatM_total. intros s.
  assert (Hne : keys chords <> []) by (simpl; discriminate).
  destruct (choice_In (keys chords) s Hne) as (name & s' & Hc & Hin).
  destruct (dict_find_keys chords name Hin) as [pitches Hp].
  eexists _, s'. rewrite (bind_Ok _ _ _ _ _ Hc).
  rewrite (bind_Ok _ _ _ _ _ (dict_get_Some _ _ _ s' Hp)).
  split; [done|]. by exists name, pitches.
Qed.

(** The name construction reads no state and leaves it alone. *)
Lemma final_chord_name_pure {S} (scale_name : string) (s : S) :
  final_chord_name scale_name s =
  (fst (final_chord_name scale_name tt), s).
Proof.
  unfold final_chord_name, mbind, M_bind, bind, list_get, mret, M_ret, ret.
  destruct (nth_error (PyStr.split scale_name) 0); [|done].
  by destruct (nth_error (PyStr.split scale_name) 1).
Qed.

Lemma final_chord_step (scale_name : string) (g : G) :
  (name ← final_chord_name scale_name; dict_get chords name) g =
  (final_chord_lookup scale_name, g).
Proof.
  unfold final_chord_lookup, mbind, M_bind, bind.
  rewrite (final_chord_name_pure scale_name g).
  destruct (final_chord_name scale_name tt) as [[name|e] []]; simpl; [|done].
  unfold dict_get. by destruct (dict_find chords name).
Qed.

(** What [compose_parts] does for a scale of the table: both loops run
    to the end, the final note is the scale's first pitch class, and the
    outcome is that of the final chord lookup. *)
Lemma compose_parts_spec (scale_name root : string) (rest : list string) :
  dict_find scales scale_name = Some (root :: rest) ->
  forall g, exists notes cs g',
    length notes = 7%nat /\ Forall (scale_note (root :: rest)) notes /\
    length cs = 7%nat /\ Forall table_chord cs /\
    compose_parts scale_name g =
    match final_chord_lookup scale_name with
    | Ok pitches =>
        (Ok ((notes ++ [ENote {| note_name := root +:+ "4";
                                 note_quarterLength := 1 |}])%list,
             (cs ++ [EChord {| chord_pitches := pitches;
                               chord_quarterLength := 1 |}])%list), g')
    | Err e => (Err e, g')
    end.
Proof.
  intros Hs g.
  assert (Hne : root :: rest <> []) by discriminate.
  destruct (create_melody_total scale_name _ Hs Hne 7 g)
    as (notes & g1 & Hm & Hlen & Hall).
  destruct (create_chord_progression_total 7 g1)
    as (cs & g2 & Hc & Hclen & Hcall).
  exists notes, cs, g2. repeat (split; [done|]).
  unfold compose_parts.
  rewrite (bind_Ok _ _ _ _ _ Hm), (bind_Ok _ _ _ _ _ Hc).
  rewrite (bind_Ok _ _ _ _ _ (dict_get_Some _ _ _ g2 Hs)).
  unfold list_get at 1. cbn [nth_error].
  unfold mbind at 1, M_bind at 1, bind at 1, ret at 1.
  pose proof (final_chord_step scale_name g2) as Hf.
  unfold mbind, M_bind, bind in Hf |- *.
  rewrite (final_chord_name_pure scale_name g2) in Hf |- *.
  destruct (fst (final_chord_name scale_name tt)) as [name|e].
  - rewrite Hf. by destruct (final_chord_lookup scale_name).
  - by inversion Hf.
Qed.

End EncoderFacts.

(** ** The tables *)

(** Every scale of the table starts on C. *)
Lemma scales_rooted (scale_name : string) (scale : list string) :
  dict_find scales scale_name = Some scale ->
  exists rest, scale = "C" :: rest.
Proof.
  unfold scales. cbn [dict_find]. intros Hs.
  repeat (destruct (String.eqb _ scale_name);
          [inversion Hs; by eexists|]).
  discriminate.
Qed.

(** The outcome of the final chord lookup, scale by scale. *)
Lemma final_chord_lookup_table :
  map (fun name => (name, final_chord_lookup name)) (keys scales) =
  [ ("C major", Ok ["C4"; "E4"; "G4"]);
    ("C minor", Ok ["C4"; "Eb4"; "G4"]);
    ("C harmonic minor", Err (KeyError "C harmonic"));
    ("C melodic minor", Err (KeyError "C melodic"));
    ("C dorian", Err (KeyError "C dorian"));
    ("C phrygian", Err (KeyError "C phrygian"));
    ("C lydian", Err (KeyError "C lydian"));
    ("C mixolydian", Err (KeyError "C mixolydian"));
    ("C locrian", Err (KeyError "C locrian"));
    ("C whole tone", Err (KeyError "C whole"));
    ("C diminished", Ok ["C4"; "Eb4"; "Gb4"]) ].
Proof. reflexivity. Qed.

(** A final chord that is found is one of three, and its first pitch
    is C4. *)
Lemma final_chord_found (scale_name : string) (pitches : list string) :
  In scale_name (keys scales) ->
  final_chord_lookup scale_name = Ok pitches ->
  In scale_name ["C major"; "C minor"; "C diminished"] /\
  dict_find chords scale_name = Some pitches /\
  head pitches = Some "C4".
Proof.
  intros Hin Hf. simpl in Hin.
  repeat (destruct Hin as [<-|Hin];
          [first [discriminate Hf
                 | inversion Hf; subst; simpl; repeat split; tauto]|]).
  destruct Hin.
Qed.

Section PieceFacts.

Context {G : Type} `{RandomGen G}.

(** Scale selection only yields names of the scale table. *)
Lemma select_scale_In (user_input : string) (g : G) name g' :
  select_scale user_input g = (Ok name, g') -> In name (keys scales).
Proof.
  unfold select_scale.
  destruct (PyStr.contains "minor" user_input).
  { intros [= <- _]. simpl. tauto. }
  destruct (PyStr.contains "major" user_input).
  { intros [= <- _]. simpl. tauto. }
  intros Hc.
  assert (Hne : keys scales <> []) by (simpl; discriminate).
  destruct (choice_In (keys scales) g Hne) as (x & g1 & Hx & Hin).
  rewrite Hx in Hc. by injection Hc as <- _.
Qed.

Lemma midi_converter_piece_unfold state content s (g : G) :
  state !! "composition" = Some content ->
  state !! "musician_input" = Some (VStr s) ->
  midi_converter_piece state g =
  (scale_name ← select_scale (PyStr.lower s);
   parts ← compose_parts scale_name;
   mret (assemble content parts.1 parts.2)) g.
Proof.
  intros Hc Hm. unfold midi_converter_piece.
  rewrite (bind_Ok _ _ _ _ _ (getitem_Some _ _ _ g Hc)).
  rewrite (bind_Ok _ _ _ _ _ (getitem_Some _ _ _ g Hm)).
  unfold str_lower. unfold mbind at 1, M_bind at 1, bind at 1, ret at 1.
  unfold mbind, M_bind, bind.
  destruct (select_scale (PyStr.lower s) g) as [[name|e] g1]; [|done].
  by destruct (compose_parts name g1) as [[[melody harmony]|e] g2].
Qed.

(** Whatever score the encoder produces has this shape. *)
Lemma midi_converter_piece_inv state (g : G) sc g' :
  midi_converter_piece state g = (Ok sc, g') ->
  exists content s name g1 rest notes cs pitches,
    state !! "composition" = Some content /\
    state !! "musician_input" = Some (VStr s) /\
    select_scale (PyStr.lower s) g = (Ok name, g1) /\
    dict_find scales name = Some ("C" :: rest) /\
    final_chord_lookup name = Ok pitches /\
    length notes = 7%nat /\ Forall (scale_note ("C" :: rest)) notes /\
    length cs = 7%nat /\ Forall table_chord cs /\
    sc = assemble content
           (notes ++ [ENote {| note_name := "C4";
                               note_quarterLength := 1 |}])%list
           (cs ++ [EChord {| chord_pitches := pitches;
                             chord_quarterLength := 1 |}])%list.
Proof.
  intros Hrun.
  destruct (state !! "composition") as [content|] eqn:Hc; cycle 1.
  { unfold midi_converter_piece in Hrun.
    by rewrite (bind_Err _ _ _ _ _ (getitem_None _ _ g Hc)) in Hrun. }
  destruct (state !! "musician_input") as [[s|n]|] eqn:Hm; cycle 1.
  { unfold midi_converter_piece in Hrun.
    rewrite (bind_Ok _ _ _ _ _ (getitem_Some _ _ _ g Hc)) in Hrun.
    by rewrite (bind_Ok _ _ _ _ _ (getitem_Some _ _ _ g Hm)) in Hrun. }
  { unfold midi_converter_piece in Hrun.
    rewrite (bind_Ok _ _ _ _ _ (getitem_Some _ _ _ g Hc)) in Hrun.
    by rewrite (bind_Err _ _ _ _ _ (getitem_None _ _ g Hm)) in Hrun. }
  rewrite (midi_converter_piece_unfold _ _ _ _ Hc Hm) in Hrun.
  apply bind_inv_Ok in Hrun as (name & g1 & Hsel & Hrun).
  apply bind_inv_Ok in Hrun as ([melody harmony] & g2 & Hcomp & Hret).
  injection Hret as <- <-.
  pose proof (select_scale_In _ _ _ _ Hsel) as Hin.
  destruct (dict_find_keys scales name Hin) as [scale Hs].
  destruct (scales_rooted _ _ Hs) as [rest ->].
  destruct (compose_parts_spec name "C" rest Hs g1)
    as (notes & cs & g3 & Hn & Hnall & Hcl & Hcall & Heq).
  rewrite Heq in Hcomp.
  destruct (final_chord_lookup name) as [pitches|e] eqn:Hf; [|done].
  injection Hcomp as <- <- _.
  by exists content, s, name, g1, rest, notes, cs, pitches.
Qed.

(** When the final chord of the selected scale is in the chord table,
    the encoder produces a score. *)
Lemma midi_converter_piece_total state content s (g : G) name g1 pitches :
  state !! "composition" = Some content ->
  state !! "musician_input" = Some (VStr s) ->
  select_scale (PyStr.lower s) g = (Ok name, g1) ->
  final_chord_lookup name = Ok pitches ->
  exists sc g', midi_converter_piece state g = (Ok sc, g').
Proof.
  intros Hc Hm Hsel Hf.
  rewrite (midi_converter_piece_unfold _ _ _ _ Hc Hm).
  rewrite (bind_Ok _ _ _ _ _ Hsel).
  pose proof (select_scale_In _ _ _ _ Hsel) as Hin.
  destruct (dict_find_keys scales name Hin) as [scale Hs].
  destruct (scales_rooted _ _ Hs) as [rest ->].
  destruct (compose_parts_spec name "C" rest Hs g1)
    as (notes & cs & g3 & _ & _ & _ & _ & Heq).
  rewrite Hf in Heq. rewrite (bind_Ok _ _ _ _ _ Heq). by eexists _, _.
Qed.

(** When it is not, the encoder stops with the lookup's exception. *)
Lemma midi_converter_piece_fails state content s (g : G) name g1 e :
  state !! "composition" = Some content ->
  state !! "musician_input" = Some (VStr s) ->
  select_scale (PyStr.lower s) g = (Ok name, g1) ->
  final_chord_lookup name = Err e ->
  exists g', midi_converter_piece state g = (Err e, g').
Proof.
  intros Hc Hm Hsel Hf.
  rewrite (midi_converter_piece_unfold _ _ _ _ Hc Hm).
  rewrite (bind_Ok _ _ _ _ _ Hsel).
  pose proof (select_scale_In _ _ _ _ Hsel) as Hin.
  destruct (dict_find_keys scales name Hin) as [scale Hs].
  destruct (scales_rooted _ _ Hs) as [rest ->].
  destruct (compose_parts_spec name "C" rest Hs g1)
    as (notes & cs & g3 & _ & _ & _ & _ & Heq).
  rewrite Hf in Heq. rewrite (bind_Err _ _ _ _ _ Heq). by eexists.
Qed.

End PieceFacts.

(** Events built by the two loops last one beat. *)
Lemma scale_note_beat scale e : scale_note scale e -> quarterLength e = 1%nat.
Proof. by intros (pc & _ & ->). Qed.

Lemma table_chord_beat e : table_chord e -> quarterLength e = 1%nat.
Proof. by intros (name & pitches & _ & ->). Qed.

(** The encoder reads two keys of the state and no other. *)
Lemma midi_converter_piece_frame {G} `{RandomGen G} state k v (g : G) :
  k <> "composition" -> k <> "musician_input" ->
  midi_converter_piece (<[k := v]> state) g = midi_converter_piece state g.
Proof.
  intros Hc Hm. unfold midi_converter_piece, getitem.
  by rewrite !lookup_insert_ne.
Qed.

(** * The claims about the encoder *)

(** C10. For the scale 'C diminished' the name constructed for the final
    chord is 'C diminished' again, the chord table has an entry under that
    name, and so the final beat of the harmony is completed without error:
    for every generator state the melody and harmony parts are returned,
    the harmony ending on that entry. 'C diminished' is a scale of the
    table other than 'C major' and 'C minor'. *)
Theorem C10_diminished_final_chord_found {G} `{RandomGen G} :
  In "C diminished" (keys scales) /\
  ~ In "C diminished" ["C major"; "C minor"] /\
  (forall S (s : S),
      final_chord_name "C diminished" s = (Ok "C diminished", s)) /\
  dict_find chords "C diminished" = Some ["C4"; "Eb4"; "Gb4"] /\
  forall g : G, exists melody harmony g',
    compose_parts "C diminished" g = (Ok (melody, harmony), g') /\
    length harmony = target_duration /\
    last harmony = Some (EChord {| chord_pitches := ["C4"; "Eb4"; "Gb4"];
                                   chord_quarterLength := 1 |}).
Proof.
  split; [simpl; tauto|].
  split; [simpl; intros [?|[?|[]]]; discriminate|].
  split; [done|]. split; [done|]. intros g.
  destruct (compose_parts_spec "C diminished" "C"
              ["D"; "Eb"; "F"; "Gb"; "Ab"; "A"; "B"] eq_refl g)
    as (notes & cs & g' & _ & _ & Hlen & _ & Heq).
  change (final_chord_lookup "C diminished")
    with (Ok (A:=list string) ["C4"; "Eb4"; "Gb4"]) in Heq.
  eexists _, _, g'. split; [exact Heq|].
  split; [rewrite length_app, Hlen; reflexivity | apply last_snoc].
Qed.

(** C3 (amended). For every scale S of the scale table:
    [create_melody(S, n)] returns exactly n notes for every n, each of one
    beat and on a pitch class of S; and the melody the encoder builds once
    S is selected has exactly 8 notes (the duration is the fixed 7 + 1, it
    is not a parameter), each of one beat and on a pitch class of S, the
    last one on S's first pitch class -- unless the run stops at the final
    chord lookup, in which case no track is produced. An entry 'duration'
    in the state changes nothing. *)
Theorem C3_melody_of_scale {G} `{RandomGen G}
    (scale_name : string) (scale : list string) :
  dict_find scales scale_name = Some scale ->
  (forall duration (g : G), exists notes g',
      create_melody scale_name duration g = (Ok notes, g') /\
      length notes = duration /\ Forall (scale_note scale) notes) /\
  (forall g : G,
      match compose_parts scale_name g with
      | (Ok (melody, harmony), _) =>
          length melody = 8%nat /\
          Forall (fun e => quarterLength e = 1%nat) melody /\
          Forall (scale_note scale) melody /\
          exists root, head scale = Some root /\
            last melody = Some (ENote {| note_name := root +:+ "4";
                                         note_quarterLength := 1 |})
      | (Err e, _) => final_chord_lookup scale_name = Err e
      end) /\
  (forall state v (g : G),
      midi_converter_piece (<["duration" := v]> state) g =
      midi_converter_piece state g).
Proof.
  intros Hs. destruct (scales_rooted _ _ Hs) as [rest ->].
  split; [|split].
  - intros duration g. by apply create_melody_total.
  - intros g.
    destruct (compose_parts_spec scale_name "C" rest Hs g)
      as (notes & cs & g' & Hlen & Hall & _ & _ & Heq).
    rewrite Heq. destruct (final_chord_lookup scale_name); [|done].
    assert (Hfinal : scale_note ("C" :: rest)
              (ENote {| note_name := "C" +:+ "4"; note_quarterLength := 1 |})).
    { exists "C". split; [by left | done]. }
    assert (Hmel : Forall (scale_note ("C" :: rest))
              (notes ++ [ENote {| note_name := "C" +:+ "4";
                                  note_quarterLength := 1 |}])).
    { apply Forall_app. split; [done | by constructor]. }
    split; [rewrite length_app, Hlen; reflexivity|].
    split; [eapply Forall_impl; [exact Hmel | apply scale_note_beat]|].
    split; [exact Hmel|].
    exists "C". split; [done | apply last_snoc].
  - intros state v g. by apply midi_converter_piece_frame.
Qed.

(** The statement above at 'C minor' and seven given draws. *)
Lemma C3_melody_of_scale_witness :
  dict_find scales "C minor" = Some ["C"; "D"; "Eb"; "F"; "G"; "Ab"; "Bb"] /\
  exists melody harmony g',
    compose_parts "C minor" [6; 5; 4; 3; 2; 1; 0]%nat
      = (Ok (melody, harmony), g') /\
    length melody = 8%nat /\
    last melody = Some (ENote {| note_name := "C4";
                                 note_quarterLength := 1 |}).
Proof.
  split; [reflexivity|].
  pose proof (C3_melody_of_scale "C minor" _ eq_refl) as (_ & Hrun & _).
  specialize (Hrun [6; 5; 4; 3; 2; 1; 0]%nat).
  destruct (compose_parts "C minor" [6; 5; 4; 3; 2; 1; 0]%nat)
    as [[[melody harmony]|e] g'] eqn:Hc.
  - exists melody, harmony, g'.
    destruct Hrun as (Hlen & _ & _ & root & Hroot & Hlast).
    injection Hroot as <-. by repeat split.
  - vm_compute in Hc. discriminate Hc.
Defined.

(** C3, as stated, fails: with a duration of 3 beats asked for, the
    melody of the score has 8 notes. *)
Lemma C3_counterexample :
  let state := <["duration" := VInt 3]> (encoder_state "A tune in C major") in
  exists sc g' melody harmony,
    midi_converter_piece state ([] : list nat) = (Ok sc, g') /\
    parts sc = [melody; harmony] /\
    state !! "duration" = Some (VInt 3) /\
    length melody <> 3%nat.
Proof.
  eexists _, _, _, _. split; [vm_compute; reflexivity|].
  split; [reflexivity|]. split; [reflexivity|]. simpl. lia.
Qed.

(** C5 (amended). In every score the encoder produces, the harmony part
    has as many events as the melody part, namely 8: the seven beats drawn
    and the final beat. Every event of either part lasts exactly one beat.
    The number is fixed: the encoder reads no duration setting, so an
    entry 'duration' in the state changes nothing. *)
Theorem C5_tracks_fill_duration {G} `{RandomGen G} state (g : G) sc g' :
  midi_converter_piece state g = (Ok sc, g') ->
  (exists melody harmony,
      parts sc = [melody; harmony] /\
      length harmony = length melody /\
      length melody = 8%nat /\
      Forall (fun e => quarterLength e = 1%nat) melody /\
      Forall (fun e => quarterLength e = 1%nat) harmony) /\
  forall v, midi_converter_piece (<["duration" := v]> state) g = (Ok sc, g').
Proof.
  intros Hrun. split; [|intros v; by rewrite midi_converter_piece_frame].
  destruct (midi_converter_piece_inv _ _ _ _ Hrun)
    as (content & s & name & g1 & rest & notes & cs & pitches &
        _ & _ & _ & _ & _ & Hn & Hnall & Hc & Hcall & ->).
  eexists _, _. split; [reflexivity|].
  rewrite !length_app, Hn, Hc. repeat split.
  - apply Forall_app. split; [|by repeat constructor].
    eapply Forall_impl; [exact Hnall | apply scale_note_beat].
  - apply Forall_app. split; [|by repeat constructor].
    eapply Forall_impl; [exact Hcall | apply table_chord_beat].
Qed.

(** The statement above at the notebook's request and fourteen given
    draws, with and without a duration of 16 beats asked for. *)
Lemma C5_tracks_fill_duration_witness :
  exists sc g' melody harmony,
    midi_converter_piece (encoder_state "Create a happy piano piece in C major")
      [3; 1; 4; 1; 5; 9; 2; 6; 5; 3; 5; 8; 9; 7]%nat = (Ok sc, g') /\
    parts sc = [melody; harmony] /\
    length harmony = 8%nat /\ length melody = 8%nat /\
    midi_converter_piece
      (<["duration" := VInt 16]>
         (encoder_state "Create a happy piano piece in C major"))
      [3; 1; 4; 1; 5; 9; 2; 6; 5; 3; 5; 8; 9; 7]%nat = (Ok sc, g').
Proof.
  destruct (midi_converter_piece
              (encoder_state "Create a happy piano piece in C major")
              [3; 1; 4; 1; 5; 9; 2; 6; 5; 3; 5; 8; 9; 7]%nat)
    as [[sc|e] g'] eqn:Hrun.
  - destruct (C5_tracks_fill_duration _ _ _ _ Hrun)
      as ((melody & harmony & Hp & Hh & Hm & _) & Hd).
    exists sc, g', melody, harmony.
    split; [reflexivity|]. split; [exact Hp|].
    split; [by rewrite Hh, Hm|]. split; [exact Hm | apply Hd].
  - vm_compute in Hrun. discriminate Hrun.
Defined.

(** C5, as stated, fails: with a target duration of 16 beats asked for,
    the two parts of the score have 8 events each. *)
Lemma C5_counterexample :
  let state :=
    <["duration" := VInt 16]> (encoder_state "A waltz in C minor") in
  exists sc g' melody harmony,
    midi_converter_piece state ([] : list nat) = (Ok sc, g') /\
    parts sc = [melody; harmony] /\
    state !! "duration" = Some (VInt 16) /\
    length melody = 8%nat /\ length harmony = 8%nat /\
    length melody <> 16%nat /\ length harmony <> 16%nat.
Proof.
  eexists _, _, _, _. split; [vm_compute; reflexivity|].
  split; [reflexivity|]. split; [reflexivity|].
  split; [reflexivity|]. split; [reflexivity|]. simpl. lia.
Qed.

(** C6 (amended). In every score the encoder produces, the one tempo
    marking is 60 beats per minute; the encoder reads no tempo setting, so
    an entry 'tempo' in the state changes nothing. *)
Theorem C6_tempo_is_60 {G} `{RandomGen G} state (g : G) sc g' :
  midi_converter_piece state g = (Ok sc, g') ->
  tempos sc = [60%nat] /\
  forall v, midi_converter_piece (<["tempo" := v]> state) g = (Ok sc, g').
Proof.
  intros Hrun. split.
  - destruct (midi_converter_piece_inv _ _ _ _ Hrun)
      as (content & s & name & g1 & rest & notes & cs & pitches &
          _ & _ & _ & _ & _ & _ & _ & _ & _ & ->).
    reflexivity.
  - intros v. by rewrite midi_converter_piece_frame.
Qed.

(** The statement above at a request for a minor key. *)
Lemma C6_tempo_is_60_witness :
  exists sc g',
    midi_converter_piece (encoder_state "Something slow in a minor key")
      ([] : list nat) = (Ok sc, g') /\
    tempos sc = [60%nat].
Proof.
  destruct (midi_converter_piece
              (encoder_state "Something slow in a minor key") ([] : list nat))
    as [[sc|e] g'] eqn:Hrun.
  - destruct (C6_tempo_is_60 _ _ _ _ Hrun) as [Ht _].
    by exists sc, g'.
  - vm_compute in Hrun. discriminate Hrun.
Defined.

(** C6, as stated, fails: with a tempo of 120 asked for, the score is
    marked 60. *)
Lemma C6_counterexample :
  let state := <["tempo" := VInt 120]> (encoder_state "A march in C major") in
  exists sc g',
    midi_converter_piece state ([] : list nat) = (Ok sc, g') /\
    state !! "tempo" = Some (VInt 120) /\
    tempos sc = [60%nat] /\ tempos sc <> [120%nat].
Proof.
  eexists _, _. split; [vm_compute; reflexivity|].
  split; [reflexivity|]. split; [reflexivity | discriminate].
Qed.

(** C9. Every scale of the scale table is named 'C ...' and starts on the
    pitch class C; every chord of the chord table is named 'C ...' and has
    C4 as its first pitch; scale selection yields only scales of the
    table. Hence in every score the encoder produces, whatever the
    musician's input, the last note of the melody is C4 and the last chord
    of the harmony is a chord of the table on C4 -- also for an input that
    names another key, such as 'in D major', for which a score is always
    produced. *)
Theorem C9_everything_is_rooted_at_C {G} `{RandomGen G} :
  Forall (fun kv => String.prefix "C " kv.1 = true /\ head kv.2 = Some "C")
         scales /\
  Forall (fun kv => String.prefix "C " kv.1 = true /\ head kv.2 = Some "C4")
         chords /\
  (forall user_input (g : G) name g',
      select_scale user_input g = (Ok name, g') ->
      String.prefix "C " name = true /\
      exists rest, dict_find scales name = Some ("C" :: rest)) /\
  (forall state (g : G) sc g',
      midi_converter_piece state g = (Ok sc, g') ->
      exists melody harmony name pitches,
        parts sc = [melody; harmony] /\
        last melody = Some (ENote {| note_name := "C" +:+ "4";
                                     note_quarterLength := 1 |}) /\
        last harmony = Some (EChord {| chord_pitches := pitches;
                                       chord_quarterLength := 1 |}) /\
        String.prefix "C " name = true /\
        dict_find chords name = Some pitches /\
        head pitches = Some "C4") /\
  (forall content (g : G), exists sc g',
      midi_converter_piece
        {[ "composition" := content;
           "musician_input" := VStr "A bright piece in D major" ]} g
      = (Ok sc, g')).
Proof.
  split; [by repeat constructor|]. split; [by repeat constructor|].
  assert (Hsel : forall user_input (g : G) name g',
             select_scale user_input g = (Ok name, g') ->
             String.prefix "C " name = true /\
             exists rest, dict_find scales name = Some ("C" :: rest)).
  { intros user_input g name g' Hs.
    pose proof (select_scale_In _ _ _ _ Hs) as Hin.
    destruct (dict_find_keys scales name Hin) as [scale Hd].
    destruct (scales_rooted _ _ Hd) as [rest ->].
    split; [|by exists rest].
    simpl in Hin. repeat (destruct Hin as [<-|Hin]; [reflexivity|]).
    destruct Hin. }
  split; [exact Hsel|]. split.
  - intros state g sc g' Hrun.
    destruct (midi_converter_piece_inv _ _ _ _ Hrun)
      as (content & s & name & g1 & rest & notes & cs & pitches &
          _ & _ & Hs & _ & Hf & _ & _ & _ & _ & ->).
    destruct (final_chord_found name pitches
                (select_scale_In _ _ _ _ Hs) Hf) as (_ & Hd & Hh).
    eexists _, _, name, pitches. split; [reflexivity|].
    split; [apply last_snoc|]. split; [apply last_snoc|].
    split; [exact (proj1 (Hsel _ _ _ _ Hs)) | by split].
  - intros content g.
    eapply (midi_converter_piece_total _ content
              "A bright piece in D major" g "C major" g); reflexivity.
Qed.

(** The statement above at a request that names no key, the generator
    drawing index 10 ('C diminished'). *)
Lemma C9_everything_is_rooted_at_C_witness :
  exists name g' sc g'' melody harmony,
    select_scale "play something" [10%nat] = (Ok name, g') /\
    String.prefix "C " name = true /\
    midi_converter_piece (encoder_state "Play something") [10%nat]
      = (Ok sc, g'') /\
    parts sc = [melody; harmony] /\
    last melody = Some (ENote {| note_name := "C4";
                                 note_quarterLength := 1 |}).
Proof.
  pose proof (@C9_everything_is_rooted_at_C (list nat) _)
    as (_ & _ & Hsel & Hrun & _).
  destruct (select_scale "play something" [10%nat]) as [[name|e] g'] eqn:Hs;
    [|vm_compute in Hs; discriminate Hs].
  destruct (midi_converter_piece (encoder_state "Play something") [10%nat])
    as [[sc|e] g''] eqn:Hp; [|vm_compute in Hp; discriminate Hp].
  destruct (Hsel _ _ _ _ Hs) as [Hpre _].
  destruct (Hrun _ _ _ _ Hp) as (melody & harmony & _ & _ & Hparts & Hl & _).
  by exists name, g', sc, g'', melody, harmony.
Defined.

(** ** Case folding and substring search *)

Lemma prefix_lower (w s : string) :
  String.prefix w s = true ->
  String.prefix (PyStr.lower w) (PyStr.lower s) = true.
Proof.
  revert s. induction w as [|a w IH]; intros s; [by destruct s|].
  destruct s as [|b s]; simpl; [discriminate|].
  destruct (ascii_dec a b) as [->|]; [|discriminate]. intros Hp.
  destruct (ascii_dec (PyStr.lower_ascii b) (PyStr.lower_ascii b)); [|done].
  by apply IH.
Qed.

(** A word found in a text is found, lower-cased, in the lower-cased
    text. *)
Lemma contains_lower (w s : string) :
  PyStr.contains w s = true ->
  PyStr.contains (PyStr.lower w) (PyStr.lower s) = true.
Proof.
  induction s as [|c s IH].
  - cbn [PyStr.contains PyStr.lower]. rewrite !orb_false_r.
    apply (prefix_lower w "").
  - cbn [PyStr.contains PyStr.lower]. intros [Hp|Hc]%orb_true_iff.
    + apply orb_true_iff. left. apply (prefix_lower w (String c s) Hp).
    + apply orb_true_iff. right. by apply IH.
Qed.

(** Conversely, what is found in the lower-cased text is the lower-cased
    form of something found in the text. *)
Lemma prefix_lower_inv (n s : string) :
  String.prefix n (PyStr.lower s) = true ->
  exists w, PyStr.lower w = n /\ String.prefix w s = true.
Proof.
  revert s. induction n as [|a n IH]; intros s Hp.
  { exists "". split; [reflexivity | by destruct s]. }
  destruct s as [|b s]; [discriminate Hp|].
  cbn [PyStr.lower String.prefix] in Hp.
  destruct (ascii_dec a (PyStr.lower_ascii b)) as [->|]; [|discriminate Hp].
  destruct (IH s Hp) as (w & Hw & Hpw).
  exists (String b w). split; [cbn [PyStr.lower]; by rewrite Hw|].
  cbn [String.prefix]. by destruct (ascii_dec b b).
Qed.

Lemma contains_lower_inv (n s : string) :
  PyStr.contains n (PyStr.lower s) = true ->
  exists w, PyStr.lower w = n /\ PyStr.contains w s = true.
Proof.
  induction s as [|c s IH].
  - cbn [PyStr.contains PyStr.lower]. rewrite orb_false_r. intros Hp.
    destruct (prefix_lower_inv n "" Hp) as (w & Hw & Hpw).
    exists w. split; [exact Hw|].
    cbn [PyStr.contains]. by rewrite Hpw.
  - cbn [PyStr.contains PyStr.lower]. intros [Hp|Hc]%orb_true_iff.
    + destruct (prefix_lower_inv n (String c s) Hp) as (w & Hw & Hpw).
      exists w. split; [exact Hw|].
      cbn [PyStr.contains]. by rewrite Hpw.
    + destruct (IH Hc) as (w & Hw & Hcw).
      exists w. split; [exact Hw|].
      cbn [PyStr.contains]. rewrite Hcw. apply orb_true_r.
Qed.

(** A text holds a lower-case word in some spelling exactly when its
    lower-cased form holds the word. *)
Lemma contains_any_case (n s : string) :
  (exists w, PyStr.lower w = n /\ PyStr.contains w s = true) <->
  PyStr.contains n (PyStr.lower s) = true.
Proof.
  split; [|apply contains_lower_inv].
  intros (w & <- & Hc). by apply contains_lower.
Qed.

(** ** The encoder inside the process *)

Section ProcessFacts.

Context {G : Type} `{RandomGen G}.
Variable midi_write : Score -> list byte.
Variable tmp_name : nat -> string -> string.

(** A score that could not be built leaves the file system alone. *)
Lemma midi_converter_Err state (w : world G) e g' :
  midi_converter_piece state (rng w) = (Err e, g') ->
  midi_converter midi_write tmp_name state w =
  (Err e, {| rng := g'; calls := calls w; files := files w;
             tmp_count := tmp_count w |}).
Proof.
  intros Hp. unfold midi_converter, mbind, M_bind, bind, with_random.
  by rewrite Hp.
Qed.

(** A score that was built is written to a new temporary file, whose
    name is returned under [midi_file]. *)
Lemma midi_converter_Ok state (w : world G) sc g' :
  midi_converter_piece state (rng w) = (Ok sc, g') ->
  let name := tmp_name (tmp_count w) ".mid" in
  midi_converter midi_write tmp_name state w =
  (Ok {[ "midi_file" := VStr name ]},
   {| rng := g'; calls := calls w;
      files := <[name := midi_write sc]> (<[name := []]> (files w));
      tmp_count := S (tmp_count w) |}).
Proof.
  intros Hp. unfold midi_converter, mbind, M_bind, bind, with_random.
  by rewrite Hp.
Qed.

End ProcessFacts.

(** C2 (amended). For every scale of the table whose constructed final
    chord name has no entry in the chord table -- these are the eight
    scales harmonic minor, melodic minor, dorian, phrygian, lydian,
    mixolydian, locrian and whole tone, and not 'C diminished' -- the final
    chord lookup raises Python's [KeyError] carrying the constructed name.
    Nothing catches it: [midi_converter] ends with that exception, after
    both parts were sampled and before any file is created. *)
Theorem C2_missing_chord_raises_KeyError {G} `{RandomGen G}
    (midi_write : Score -> list byte) (tmp_name : nat -> string -> string)
    (scale_name name : string) :
  In scale_name (keys scales) ->
  fst (final_chord_name scale_name tt) = Ok name ->
  dict_find chords name = None ->
  In scale_name ["C harmonic minor"; "C melodic minor"; "C dorian";
                 "C phrygian"; "C lydian"; "C mixolydian"; "C locrian";
                 "C whole tone"] /\
  final_chord_lookup scale_name = Err (KeyError name) /\
  exn_class (KeyError name) = "KeyError" /\
  (forall g : G, exists g',
      compose_parts scale_name g = (Err (KeyError name), g')) /\
  (forall state content s (w : world G) g1,
      state !! "composition" = Some content ->
      state !! "musician_input" = Some (VStr s) ->
      select_scale (PyStr.lower s) (rng w) = (Ok scale_name, g1) ->
      exists w', midi_converter midi_write tmp_name state w
                 = (Err (KeyError name), w') /\
                 files w' = files w /\ tmp_count w' = tmp_count w).
Proof.
  intros Hin Hname Hnone.
  assert (Hf : final_chord_lookup scale_name = Err (KeyError name)).
  { unfold final_chord_lookup, mbind, M_bind, bind.
    rewrite (final_chord_name_pure scale_name tt), Hname.
    by rewrite (dict_get_None _ _ tt Hnone). }
  split.
  { simpl in Hin.
    repeat (destruct Hin as [<-|Hin];
            [first [discriminate Hf | simpl; tauto]|]).
    destruct Hin. }
  split; [exact Hf|]. split; [reflexivity|]. split.
  - intros g.
    destruct (dict_find_keys scales scale_name Hin) as [scale Hs].
    destruct (scales_rooted _ _ Hs) as [rest ->].
    destruct (compose_parts_spec scale_name "C" rest Hs g)
      as (notes & cs & g' & _ & _ & _ & _ & Heq).
    rewrite Hf in Heq. by exists g'.
  - intros state content s w g1 Hc Hm Hsel.
    destruct (midi_converter_piece_fails state content s (rng w)
                scale_name g1 (KeyError name) Hc Hm Hsel Hf) as [g' Hp].
    eexists. split; [by apply midi_converter_Err|]. by split.
Qed.

(** The statement above at 'C whole tone', whose constructed name is
    'C whole'. *)
Lemma C2_missing_chord_raises_KeyError_witness :
  In "C whole tone" (keys scales) /\
  fst (final_chord_name "C whole tone" tt) = Ok "C whole" /\
  dict_find chords "C whole" = None /\
  exists g', compose_parts "C whole tone" [2; 0; 1]%nat
             = (Err (KeyError "C whole"), g').
Proof.
  assert (Hin : In "C whole tone" (keys scales)) by (simpl; tauto).
  split; [exact Hin|]. split; [reflexivity|]. split; [reflexivity|].
  destruct (C2_missing_chord_raises_KeyError stub_write stub_tmp
              "C whole tone" "C whole" Hin eq_refl eq_refl)
    as (_ & _ & _ & Hrun & _).
  exact (Hrun [2; 0; 1]%nat).
Defined.

(** C2, as stated, fails: with 'C dorian' selected, the chord table has no
    entry 'C dorian' and the encoder ends with a [KeyError], not with a
    [ChordLookupError]. *)
Lemma C2_counterexample :
  let state := encoder_state "Something jazzy" in
  select_scale (PyStr.lower "Something jazzy") [4%nat] = (Ok "C dorian", []) /\
  fst (final_chord_name "C dorian" tt) = Ok "C dorian" /\
  dict_find chords "C dorian" = None /\
  exists e w',
    midi_converter stub_write stub_tmp state (start [4%nat]) = (Err e, w') /\
    exn_class e = "KeyError" /\
    exn_class e <> "ChordLookupError".
Proof.
  split; [reflexivity|]. split; [reflexivity|]. split; [reflexivity|].
  exists (KeyError "C dorian"). eexists.
  split; [vm_compute; reflexivity|]. split; [reflexivity | discriminate].
Qed.

(** C4. The encoder scans the request without regard to case. Say that a
    word occurs in the request when some spelling of it, in any mix of
    upper and lower case, is a substring of the request as the caller gave
    it. If 'minor' occurs, the score is the one composed in 'C minor';
    otherwise, if 'major' occurs, it is the one composed in 'C major';
    neither selection draws a random number. Otherwise the scale is the
    entry of the full scale table (11 distinct names) at the index
    [random.choice] draws from [range(11)], and the score is composed in
    it from the generator state after that draw. For the request 'Create a
    happy piece in C minor' the score is composed in 'C minor' whatever the
    generator, it is produced, and its melody ends on the pitch class
    C. *)
Theorem C4_scale_selection {G} `{RandomGen G}
    (state : MusicState) (content : value) (musician_input : string)
    (g : G) :
  state !! "composition" = Some content ->
  state !! "musician_input" = Some (VStr musician_input) ->
  let occurs (word : string) :=
    exists w, PyStr.lower w = word /\
              PyStr.contains w musician_input = true in
  let composed_in (scale_name : string) (g0 : G) :=
    (parts ← compose_parts scale_name;
     mret (assemble content parts.1 parts.2)) g0 in
  (occurs "minor" ->
   midi_converter_piece state g = composed_in "C minor" g) /\
  (~ occurs "minor" -> occurs "major" ->
   midi_converter_piece state g = composed_in "C major" g) /\
  (~ occurs "minor" -> ~ occurs "major" ->
   exists name,
     nth_error (keys scales) (fst (randbelow g 11)) = Some name /\
     midi_converter_piece state g = composed_in name (snd (randbelow g 11))) /\
  (length (keys scales) = 11%nat /\ NoDup (keys scales)) /\
  (musician_input = "Create a happy piece in C minor" ->
   exists sc g' melody harmony,
     midi_converter_piece state g = (Ok sc, g') /\
     composed_in "C minor" g = (Ok sc, g') /\
     parts sc = [melody; harmony] /\
     last melody = Some (ENote {| note_name := "C" +:+ "4";
                                  note_quarterLength := 1 |})).
Proof.
  intros Hc Hm. cbv zeta.
  rewrite (midi_converter_piece_unfold _ _ _ _ Hc Hm).
  split; [|split; [|split; [|split]]].
  - intros Hminor. apply contains_any_case in Hminor.
    assert (Hsel : select_scale (PyStr.lower musician_input) g
                   = (Ok "C minor", g))
      by (unfold select_scale; by rewrite Hminor).
    by rewrite (bind_Ok _ _ _ _ _ Hsel).
  - intros Hminor Hmajor. apply contains_any_case in Hmajor.
    assert (Hsel : select_scale (PyStr.lower musician_input) g
                   = (Ok "C major", g)).
    { unfold select_scale.
      destruct (PyStr.contains "minor" (PyStr.lower musician_input)) eqn:E.
      - destruct Hminor. by apply contains_any_case.
      - by rewrite Hmajor. }
    by rewrite (bind_Ok _ _ _ _ _ Hsel).
  - intros Hminor Hmajor.
    assert (Hne : keys scales <> []) by (simpl; discriminate).
    destruct (choice_total (keys scales) g Hne) as (name & Hch & Hn).
    assert (Hsel : select_scale (PyStr.lower musician_input) g
                   = (Ok name, snd (randbelow g 11))).
    { unfold select_scale.
      destruct (PyStr.contains "minor" (PyStr.lower musician_input)) eqn:E1;
        [destruct Hminor; by apply contains_any_case|].
      destruct (PyStr.contains "major" (PyStr.lower musician_input)) eqn:E2;
        [destruct Hmajor; by apply contains_any_case|].
      exact Hch. }
    exists name. split; [exact Hn|]. by rewrite (bind_Ok _ _ _ _ _ Hsel).
  - split; [reflexivity|].
    refine (bool_decide_unpack _ _). vm_compute. exact I.
  - intros ->.
    assert (Hsel : select_scale
                     (PyStr.lower "Create a happy piece in C minor") g
                   = (Ok "C minor", g)) by reflexivity.
    destruct (midi_converter_piece_total state content
                "Create a happy piece in C minor" g "C minor" g
                ["C4"; "Eb4"; "G4"] Hc Hm Hsel eq_refl) as (sc & g' & Hrun).
    destruct (midi_converter_piece_inv _ _ _ _ Hrun)
      as (c & s & name & g1 & rest & notes & cs & pitches &
          _ & _ & _ & _ & _ & _ & _ & _ & _ & Hsc).
    rewrite (midi_converter_piece_unfold _ _ _ _ Hc Hm) in Hrun.
    exists sc, g'. eexists _, _. split; [exact Hrun|].
    rewrite (bind_Ok _ _ _ _ _ Hsel) in Hrun. split; [exact Hrun|].
    rewrite Hsc. split; [reflexivity | apply last_snoc].
Qed.

(** The three branches of the statement above at three requests, two of
    them with the keyword in capitals. *)
Lemma C4_scale_selection_witness :
  PyStr.contains "MiNoR" "Slow waltz in a MiNoR key" = true /\
  midi_converter_piece (encoder_state "Slow waltz in a MiNoR key") [7%nat]
    = (parts ← compose_parts "C minor";
       mret (assemble (VStr "tinyNotation: 4/4 c4 d e f") parts.1 parts.2))
        [7%nat] /\
  midi_converter_piece (encoder_state "Fanfare, D MAJOR") [7%nat]
    = (parts ← compose_parts "C major";
       mret (assemble (VStr "tinyNotation: 4/4 c4 d e f") parts.1 parts.2))
        [7%nat] /\
  midi_converter_piece (encoder_state "Something jazzy") [7%nat]
    = (parts ← compose_parts "C mixolydian";
       mret (assemble (VStr "tinyNotation: 4/4 c4 d e f") parts.1 parts.2))
        [].
Proof.
  assert (Hnot : forall n s,
             PyStr.contains n (PyStr.lower s) = false ->
             ~ exists w, PyStr.lower w = n /\ PyStr.contains w s = true).
  { intros n s Hf Hex. apply contains_any_case in Hex. congruence. }
  split; [reflexivity|]. split; [|split].
  - apply (proj1 (C4_scale_selection
                    (encoder_state "Slow waltz in a MiNoR key")
                    (VStr "tinyNotation: 4/4 c4 d e f")
                    "Slow waltz in a MiNoR key" [7%nat] eq_refl eq_refl)).
    exists "MiNoR". split; reflexivity.
  - apply (proj1 (proj2 (C4_scale_selection
                           (encoder_state "Fanfare, D MAJOR")
                           (VStr "tinyNotation: 4/4 c4 d e f")
                           "Fanfare, D MAJOR" [7%nat] eq_refl eq_refl))).
    + apply Hnot. reflexivity.
    + exists "MAJOR". split; reflexivity.
  - destruct (proj1 (proj2 (proj2 (C4_scale_selection
                                     (encoder_state "Something jazzy")
                                     (VStr "tinyNotation: 4/4 c4 d e f")
                                     "Something jazzy" [7%nat]
                                     eq_refl eq_refl))))
      as (name & Hn & Hs).
    + apply Hnot. reflexivity.
    + apply Hnot. reflexivity.
    + vm_compute in Hn. injection Hn as <-. exact Hs.
Defined.

(** * The workflow *)

(** Membership in a list that is written out. *)
Ltac in_list := apply list_elem_of_In; simpl; auto 10.

(** The state the first step builds holds, under each declared field, what
    the input holds there, and nothing else. *)
Lemma restrict_lookup ks (d : gmap string value) j :
  restrict ks d !! j = if bool_decide (j ∈ ks) then d !! j else None.
Proof.
  induction ks as [|k ks IH].
  { cbn [restrict]. rewrite lookup_empty.
    case_bool_decide as Hj; [by apply elem_of_nil in Hj | done]. }
  cbn [restrict]. destruct (decide (j = k)) as [->|Hne].
  - rewrite bool_decide_eq_true_2 by (apply elem_of_cons; by left).
    destruct (d !! k) as [v|] eqn:Hk.
    + by rewrite lookup_insert_eq.
    + rewrite IH. by destruct (bool_decide _).
  - assert (Hb : bool_decide (j ∈ k :: ks) = bool_decide (j ∈ ks)).
    { apply bool_decide_ext. rewrite elem_of_cons. tauto. }
    rewrite Hb. destruct (d !! k); [rewrite lookup_insert_ne by done|]; exact IH.
Qed.

Lemma restrict_lookup_in ks (d : gmap string value) j :
  j ∈ ks -> restrict ks d !! j = d !! j.
Proof. intros Hj. by rewrite restrict_lookup, bool_decide_eq_true_2. Qed.

Lemma restrict_singleton ks k (v : value) :
  k ∈ ks -> restrict ks {[ k := v ]} = {[ k := v ]}.
Proof.
  intros Hk. apply map_eq. intros j. rewrite restrict_lookup.
  case_bool_decide as Hj; [done|].
  symmetry. apply lookup_singleton_ne. by intros ->.
Qed.

Lemma restrict_insert ks k (v : value) (d : gmap string value) :
  k ∈ ks -> restrict ks (<[k := v]> d) = <[k := v]> (restrict ks d).
Proof.
  intros Hk. apply map_eq. intros j. rewrite restrict_lookup.
  destruct (decide (j = k)) as [->|Hne].
  - rewrite bool_decide_eq_true_2 by done. by rewrite !lookup_insert_eq.
  - rewrite !lookup_insert_ne by done. by rewrite restrict_lookup.
Qed.

Lemma dom_restrict ks (d : gmap string value) :
  dom (restrict ks d) = dom d ∩ list_to_set ks.
Proof.
  apply set_eq. intros j.
  rewrite elem_of_dom, restrict_lookup, elem_of_intersection, elem_of_dom,
    elem_of_list_to_set.
  case_bool_decide as Hj; [tauto|].
  split; [by intros ?%is_Some_None | tauto].
Qed.

(** An input holds none of the fields when no field has an entry. *)
Lemma holds_none_true ks (d : gmap string value) :
  holds_none ks d = true <-> forall k, k ∈ ks -> d !! k = None.
Proof.
  unfold holds_none. rewrite forallb_forall. split.
  - intros Hall k Hk. apply list_elem_of_In in Hk. specialize (Hall k Hk).
    by destruct (d !! k).
  - intros Hall k Hk. apply list_elem_of_In in Hk. by rewrite (Hall k Hk).
Qed.

Lemma holds_none_false ks (d : gmap string value) k v :
  k ∈ ks -> d !! k = Some v -> holds_none ks d = false.
Proof.
  intros Hk Hv. destruct (holds_none ks d) eqn:Hn; [|done].
  rewrite holds_none_true in Hn. rewrite (Hn k Hk) in Hv. done.
Qed.

Section WorkflowFacts.

Context {G : Type} `{RandomGen G}.
Variable llm : request -> result string.
Variable midi_write : Score -> list byte.
Variable tmp_name : nat -> string -> string.

(** Each generative stage reads its keys first, in the order written, and
    only then sends one request. *)
Lemma melody_generator_run state (w : world G) :
  melody_generator llm state w =
  match state !! "musician_input" with
  | None => (Err (KeyError "musician_input"), w)
  | Some input =>
      answer llm {| template := melody_template;
                arguments := [("input", input)] |} "melody" w
  end.
Proof.
  unfold melody_generator, getitem, answer, mbind, M_bind, bind,
    chain_invoke, ret, raise.
  destruct (state !! "musician_input"); [|done]. by destruct (llm _).
Qed.

Lemma harmony_creator_run state (w : world G) :
  harmony_creator llm state w =
  match state !! "melody" with
  | None => (Err (KeyError "melody"), w)
  | Some melody =>
      answer llm {| template := harmony_template;
                arguments := [("melody", melody)] |} "harmony" w
  end.
Proof.
  unfold harmony_creator, getitem, answer, mbind, M_bind, bind,
    chain_invoke, ret, raise.
  destruct (state !! "melody"); [|done]. by destruct (llm _).
Qed.

Lemma rhythm_analyzer_run state (w : world G) :
  rhythm_analyzer llm state w =
  match state !! "melody", state !! "harmony" with
  | None, _ => (Err (KeyError "melody"), w)
  | Some _, None => (Err (KeyError "harmony"), w)
  | Some melody, Some harmony =>
      answer llm {| template := rhythm_template;
                arguments := [("melody", melody); ("harmony", harmony)] |}
             "rhythm" w
  end.
Proof.
  unfold rhythm_analyzer, getitem, answer, mbind, M_bind, bind,
    chain_invoke, ret, raise.
  destruct (state !! "melody"); [|done].
  destruct (state !! "harmony"); [|done]. by destruct (llm _).
Qed.

Lemma style_adapter_run state (w : world G) :
  style_adapter llm state w =
  match state !! "style", state !! "melody",
        state !! "harmony", state !! "rhythm" with
  | None, _, _, _ => (Err (KeyError "style"), w)
  | Some _, None, _, _ => (Err (KeyError "melody"), w)
  | Some _, Some _, None, _ => (Err (KeyError "harmony"), w)
  | Some _, Some _, Some _, None => (Err (KeyError "rhythm"), w)
  | Some style, Some melody, Some harmony, Some rhythm =>
      answer llm {| template := style_template;
                arguments := [("style", style); ("melody", melody);
                              ("harmony", harmony); ("rhythm", rhythm)] |}
             "composition" w
  end.
Proof.
  unfold style_adapter, getitem, answer, mbind, M_bind, bind,
    chain_invoke, ret, raise.
  destruct (state !! "style"); [|done].
  destruct (state !! "melody"); [|done].
  destruct (state !! "harmony"); [|done].
  destruct (state !! "rhythm"); [|done]. by destruct (llm _).
Qed.

Lemma answer_Ok rq key (w : world G) update w' :
  answer llm rq key w = (Ok update, w') ->
  exists a, llm rq = Ok a /\ update = {[ key := VStr a ]} /\
            w' = log_call rq w.
Proof.
  unfold answer. destruct (llm rq) as [a|e]; [|done].
  intros [= <- <-]. by exists a.
Qed.

(** What a generative stage returns when it returns: one entry, under
    the stage's own key. *)
Lemma melody_generator_update state (w : world G) update w' :
  melody_generator llm state w = (Ok update, w') ->
  exists a, update = {[ "melody" := VStr a ]}.
Proof.
  rewrite melody_generator_run.
  destruct (state !! "musician_input"); [|done].
  intros (a & _ & -> & _)%answer_Ok. by exists a.
Qed.

Lemma harmony_creator_update state (w : world G) update w' :
  harmony_creator llm state w = (Ok update, w') ->
  exists a, update = {[ "harmony" := VStr a ]}.
Proof.
  rewrite harmony_creator_run.
  destruct (state !! "melody"); [|done].
  intros (a & _ & -> & _)%answer_Ok. by exists a.
Qed.

Lemma rhythm_analyzer_update state (w : world G) update w' :
  rhythm_analyzer llm state w = (Ok update, w') ->
  exists a, update = {[ "rhythm" := VStr a ]}.
Proof.
  rewrite rhythm_analyzer_run.
  destruct (state !! "melody"); [|done].
  destruct (state !! "harmony"); [|done].
  intros (a & _ & -> & _)%answer_Ok. by exists a.
Qed.

Lemma style_adapter_update state (w : world G) update w' :
  style_adapter llm state w = (Ok update, w') ->
  exists a, update = {[ "composition" := VStr a ]}.
Proof.
  rewrite style_adapter_run.
  destruct (state !! "style"); [|done].
  destruct (state !! "melody"); [|done].
  destruct (state !! "harmony"); [|done].
  destruct (state !! "rhythm"); [|done].
  intros (a & _ & -> & _)%answer_Ok. by exists a.
Qed.

(** What [midi_converter] returns when it returns. *)
Lemma midi_converter_update state (w : world G) update w' :
  midi_converter midi_write tmp_name state w = (Ok update, w') ->
  exists name, update = {[ "midi_file" := VStr name ]}.
Proof.
  destruct (midi_converter_piece state (rng w)) as [[sc|e] g'] eqn:Hp.
  - rewrite (midi_converter_Ok midi_write tmp_name _ _ _ _ Hp).
    intros [= <- _]. by eexists.
  - by rewrite (midi_converter_Err midi_write tmp_name _ _ _ _ Hp).
Qed.

(** The keys the stages write are fields of the state class. *)
Lemma stage_keys_fields k : k ∈ stage_keys -> k ∈ MusicState_fields.
Proof.
  unfold stage_keys, MusicState_fields. rewrite !elem_of_cons. tauto.
Qed.

(** One step of a run: call the node, merge, follow the edge. *)
Lemma run_from_step fuel (g : StateGraph) name f next state (w : world G) :
  String.eqb name END = false ->
  dict_find (nodes g) name = Some f ->
  dict_find (edges g) name = Some next ->
  run_from (S fuel) g name state w =
  (update ← f state;
   rest ← run_from fuel g next (restrict (schema g) update ∪ state);
   mret (restrict (schema g) update ∪ state :: rest)) w.
Proof.
  intros Hn Hf He. cbn [run_from]. rewrite Hn, He.
  unfold dict_get. by rewrite Hf.
Qed.

Lemma run_from_END fuel (g : StateGraph) state (w : world G) :
  run_from fuel g END state w = (Ok [], w).
Proof. by destruct fuel. Qed.

(** The compiled graph rejects an input that holds none of the declared
    fields; otherwise it runs the five stages one after the other, the
    first on the declared part of the input, each on the state merged so
    far. *)
Lemma stream_workflow inputs (w : world G) :
  stream (workflow llm midi_write tmp_name) inputs w =
  if holds_none MusicState_fields inputs then (Err InvalidUpdateError, w)
  else
    let s0 := restrict MusicState_fields inputs in
    (u1 ← melody_generator llm s0;
     let s1 := u1 ∪ s0 in
     u2 ← harmony_creator llm s1;
     let s2 := u2 ∪ s1 in
     u3 ← rhythm_analyzer llm s2;
     let s3 := u3 ∪ s2 in
     u4 ← style_adapter llm s3;
     let s4 := u4 ∪ s3 in
     u5 ← midi_converter midi_write tmp_name s4;
     let s5 := u5 ∪ s4 in
     mret [s0; s1; s2; s3; s4; s5]) w.
Proof.
  unfold stream, start_node.
  change (schema (workflow llm midi_write tmp_name)) with MusicState_fields.
  change (entry_point (workflow llm midi_write tmp_name))
    with (Some "melody_generator").
  unfold mbind at 1. unfold M_bind at 1. unfold bind at 1.
  destruct (holds_none MusicState_fields inputs); [reflexivity|].
  unfold ret at 1. cbv zeta.
  unfold recursion_limit, mbind, M_bind, bind.
  rewrite (run_from_step _ _ "melody_generator" (melody_generator llm)
             "harmony_creator") by reflexivity.
  unfold mbind, M_bind, bind.
  change (schema (workflow llm midi_write tmp_name)) with MusicState_fields.
  destruct (melody_generator _ _ w) as [[u1|e] w1] eqn:E1; [|done].
  apply melody_generator_update in E1 as (a1 & ->).
  rewrite restrict_singleton by in_list.
  rewrite (run_from_step _ _ "harmony_creator" (harmony_creator llm)
             "rhythm_analyzer") by reflexivity.
  unfold mbind, M_bind, bind.
  change (schema (workflow llm midi_write tmp_name)) with MusicState_fields.
  destruct (harmony_creator _ _ w1) as [[u2|e] w2] eqn:E2; [|done].
  apply harmony_creator_update in E2 as (a2 & ->).
  rewrite restrict_singleton by in_list.
  rewrite (run_from_step _ _ "rhythm_analyzer" (rhythm_analyzer llm)
             "style_adapter") by reflexivity.
  unfold mbind, M_bind, bind.
  change (schema (workflow llm midi_write tmp_name)) with MusicState_fields.
  destruct (rhythm_analyzer _ _ w2) as [[u3|e] w3] eqn:E3; [|done].
  apply rhythm_analyzer_update in E3 as (a3 & ->).
  rewrite restrict_singleton by in_list.
  rewrite (run_from_step _ _ "style_adapter" (style_adapter llm)
             "midi_converter") by reflexivity.
  unfold mbind, M_bind, bind.
  change (schema (workflow llm midi_write tmp_name)) with MusicState_fields.
  destruct (style_adapter _ _ w3) as [[u4|e] w4] eqn:E4; [|done].
  apply style_adapter_update in E4 as (a4 & ->).
  rewrite restrict_singleton by in_list.
  rewrite (run_from_step _ _ "midi_converter"
             (midi_converter midi_write tmp_name) END) by reflexivity.
  unfold mbind, M_bind, bind.
  change (schema (workflow llm midi_write tmp_name)) with MusicState_fields.
  destruct (midi_converter _ _ _ w4) as [[u5|e] w5] eqn:E5; [|done].
  apply midi_converter_update in E5 as (a5 & ->).
  rewrite restrict_singleton by in_list.
  by rewrite run_from_END.
Qed.

(** The same, for an input that holds a declared field. *)
Lemma stream_workflow_fields inputs (w : world G) :
  holds_none MusicState_fields inputs = false ->
  stream (workflow llm midi_write tmp_name) inputs w =
  (let s0 := restrict MusicState_fields inputs in
   u1 ← melody_generator llm s0;
   let s1 := u1 ∪ s0 in
   u2 ← harmony_creator llm s1;
   let s2 := u2 ∪ s1 in
   u3 ← rhythm_analyzer llm s2;
   let s3 := u3 ∪ s2 in
   u4 ← style_adapter llm s3;
   let s4 := u4 ∪ s3 in
   u5 ← midi_converter midi_write tmp_name s4;
   let s5 := u5 ∪ s4 in
   mret [s0; s1; s2; s3; s4; s5]) w.
Proof. intros Hn. by rewrite stream_workflow, Hn. Qed.

(** [invoke] fails exactly as the stream does. *)
Lemma app_Err inputs (w : world G) e w' :
  stream (workflow llm midi_write tmp_name) inputs w = (Err e, w') ->
  app llm midi_write tmp_name inputs w = (Err e, w').
Proof. intros Hs. unfold app, invoke. by rewrite (bind_Err _ _ _ _ _ Hs). Qed.

(** The states of a completed run: the input held a declared field, and
    each stage adds the one key it owns. *)
Lemma stream_workflow_Ok inputs (w : world G) chunks w' :
  stream (workflow llm midi_write tmp_name) inputs w = (Ok chunks, w') ->
  holds_none MusicState_fields inputs = false /\
  exists melody harmony rhythm composition midi_file : string,
    let s0 := restrict MusicState_fields inputs in
    let s1 := <["melody" := VStr melody]> s0 in
    let s2 := <["harmony" := VStr harmony]> s1 in
    let s3 := <["rhythm" := VStr rhythm]> s2 in
    let s4 := <["composition" := VStr composition]> s3 in
    let s5 := <["midi_file" := VStr midi_file]> s4 in
    chunks = [s0; s1; s2; s3; s4; s5].
Proof.
  rewrite stream_workflow.
  destruct (holds_none MusicState_fields inputs); [done|].
  cbv zeta. intros Hrun. split; [done|].
  apply bind_inv_Ok in Hrun as (u1 & w1 & H1 & Hrun).
  apply bind_inv_Ok in Hrun as (u2 & w2 & H2 & Hrun).
  apply bind_inv_Ok in Hrun as (u3 & w3 & H3 & Hrun).
  apply bind_inv_Ok in Hrun as (u4 & w4 & H4 & Hrun).
  apply bind_inv_Ok in Hrun as (u5 & w5 & H5 & Hrun).
  injection Hrun as <- _.
  apply melody_generator_update in H1 as (melody & ->).
  apply harmony_creator_update in H2 as (harmony & ->).
  apply rhythm_analyzer_update in H3 as (rhythm & ->).
  apply style_adapter_update in H4 as (composition & ->).
  apply midi_converter_update in H5 as (midi_file & ->).
  exists melody, harmony, rhythm, composition, midi_file.
  rewrite <- !insert_union_singleton_l. reflexivity.
Qed.

(** A run completes when the two inputs the stages read are there, the
    chat model answers, and the request names a major or a minor key. *)
Lemma stream_workflow_total inputs s style (w : world G) :
  inputs !! "musician_input" = Some (VStr s) ->
  inputs !! "style" = Some style ->
  (forall rq, exists a, llm rq = Ok a) ->
  PyStr.contains "minor" (PyStr.lower s)
    || PyStr.contains "major" (PyStr.lower s) = true ->
  exists chunks w',
    stream (workflow llm midi_write tmp_name) inputs w = (Ok chunks, w').
Proof.
  intros Hm Hs Hllm Hkey.
  rewrite stream_workflow_fields
    by (eapply holds_none_false; [|exact Hm]; in_list).
  cbv zeta.
  assert (Hm0 : restrict MusicState_fields inputs !! "musician_input"
                = Some (VStr s))
    by (rewrite restrict_lookup_in by in_list; exact Hm).
  assert (Hs0 : restrict MusicState_fields inputs !! "style" = Some style)
    by (rewrite restrict_lookup_in by in_list; exact Hs).
  set (s0 := restrict MusicState_fields inputs) in *.
  destruct (Hllm {| template := melody_template;
                    arguments := [("input", VStr s)] |}) as [melody H1].
  erewrite bind_Ok;
    [|by rewrite melody_generator_run, Hm0; unfold answer; rewrite H1].
  rewrite <- insert_union_singleton_l.
  destruct (Hllm {| template := harmony_template;
                    arguments := [("melody", VStr melody)] |})
    as [harmony H2].
  erewrite bind_Ok;
    [|by rewrite harmony_creator_run, lookup_insert_eq;
         unfold answer; rewrite H2].
  rewrite <- insert_union_singleton_l.
  destruct (Hllm {| template := rhythm_template;
                    arguments := [("melody", VStr melody);
                                  ("harmony", VStr harmony)] |})
    as [rhythm H3].
  erewrite bind_Ok;
    [|by rewrite rhythm_analyzer_run; simplify_map_eq;
         unfold answer; rewrite H3].
  rewrite <- insert_union_singleton_l.
  destruct (Hllm {| template := style_template;
                    arguments := [("style", style); ("melody", VStr melody);
                                  ("harmony", VStr harmony);
                                  ("rhythm", VStr rhythm)] |})
    as [composition H4].
  erewrite bind_Ok;
    [|by rewrite style_adapter_run; simplify_map_eq;
         unfold answer; rewrite H4].
  rewrite <- insert_union_singleton_l.
  set (s4 := <["composition" := VStr composition]> _).
  assert (Hc4 : s4 !! "composition" = Some (VStr composition))
    by apply lookup_insert_eq.
  assert (Hm4 : s4 !! "musician_input" = Some (VStr s))
    by (unfold s4; by rewrite !lookup_insert_ne).
  set (w4 := log_call _ (log_call _ (log_call _ (log_call _ w)))).
  assert (exists name pitches,
             select_scale (PyStr.lower s) (rng w4) = (Ok name, rng w4) /\
             final_chord_lookup name = Ok pitches)
    as (name & pitches & Hsel & Hf).
  { unfold select_scale.
    destruct (PyStr.contains "minor" (PyStr.lower s)).
    - by exists "C minor", ["C4"; "Eb4"; "G4"].
    - simpl in Hkey. rewrite Hkey. by exists "C major", ["C4"; "E4"; "G4"]. }
  destruct (midi_converter_piece_total s4 _ s (rng w4) name _ pitches
              Hc4 Hm4 Hsel Hf) as (sc & g' & Hp).
  rewrite (bind_Ok _ _ _ _ _
             (midi_converter_Ok midi_write tmp_name s4 w4 sc g' Hp)).
  by eexists _, _.
Qed.

End WorkflowFacts.

(** * The claims about the workflow *)

(** C8. In a completed run of the workflow the state passes through six
    values: the initial state and the state after each of the five stages.
    The initial state is the declared part of the inputs: it holds what the
    inputs hold under the fields of MusicState and nothing under any other
    key. Each stage changes the state by setting exactly one key, its own,
    in the order melody, harmony, rhythm, composition, midi_file; so the
    keys present after i stages are the declared keys of the inputs and the
    first i stage keys, a key written by a stage keeps its value to the end
    of the run, and every other key keeps the value the initial state gave
    it. The last of the six states is the result of [app.invoke]. *)
Theorem C8_state_grows_in_pipeline_order {G} `{RandomGen G}
    (llm : request -> result string) (midi_write : Score -> list byte)
    (tmp_name : nat -> string -> string)
    (inputs : gmap string value) (w : world G) chunks w' :
  stream (workflow llm midi_write tmp_name) inputs w = (Ok chunks, w') ->
  exists initial final,
    length chunks = 6%nat /\
    chunks !! 0%nat = Some initial /\
    initial = restrict MusicState_fields inputs /\
    (forall k, initial !! k =
               if bool_decide (k ∈ MusicState_fields) then inputs !! k
               else None) /\
    last chunks = Some final /\
    app llm midi_write tmp_name inputs w = (Ok final, w') /\
    (forall i s s',
        chunks !! i = Some s -> chunks !! (S i) = Some s' ->
        exists k v, stage_keys !! i = Some k /\ s' = <[k := v]> s) /\
    (forall i s,
        chunks !! i = Some s ->
        dom s = (dom inputs ∩ list_to_set MusicState_fields)
                  ∪ list_to_set (take i stage_keys)) /\
    (forall i j s k,
        chunks !! i = Some s -> stage_keys !! j = Some k -> (j < i)%nat ->
        is_Some (s !! k) /\ s !! k = final !! k) /\
    (forall i s k,
        chunks !! i = Some s -> k ∉ stage_keys -> s !! k = initial !! k).
Proof.
  intros Hrun.
  destruct (stream_workflow_Ok _ _ _ _ _ _ _ Hrun)
    as (_ & melody & harmony & rhythm & composition & midi_file & Hchunks).
  cbv zeta in Hchunks.
  assert (Happ : app llm midi_write tmp_name inputs w
                 = (Ok (List.last chunks inputs), w')).
  { unfold app, invoke. by rewrite (bind_Ok _ _ _ _ _ Hrun). }
  pose proof (dom_restrict MusicState_fields inputs) as Hdom.
  remember (restrict MusicState_fields inputs) as s0 eqn:Hs0.
  subst chunks. clear Hrun.
  exists s0. eexists. split; [reflexivity|]. split; [reflexivity|].
  split; [reflexivity|]. split; [intros k; rewrite Hs0; apply restrict_lookup|].
  split; [reflexivity|]. split; [exact Happ|]. clear Happ Hs0.
  split; [|split; [|split]].
  - intros i s s' Hi Hsi.
    do 6 (destruct i as [|i];
          [first [discriminate Hsi
                 | injection Hi as <-; injection Hsi as <-; by eexists _, _]|]).
    discriminate Hi.
  - intros i s Hi.
    do 6 (destruct i as [|i];
          [injection Hi as <-; cbn [take stage_keys list_to_set];
           rewrite ?dom_insert_L, Hdom; set_unfold; intros x; tauto|]).
    discriminate Hi.
  - intros i j s k Hi Hj Hlt.
    do 6 (destruct i as [|i];
          [injection Hi as <-;
           do 5 (destruct j as [|j];
                 [first [lia | injection Hj as <-; by simplify_map_eq]|]);
           discriminate Hj|]).
    discriminate Hi.
  - intros i s k Hi Hk.
    assert (k <> "melody" /\ k <> "harmony" /\ k <> "rhythm" /\
            k <> "composition" /\ k <> "midi_file") as (? & ? & ? & ? & ?).
    { unfold stage_keys in Hk. set_unfold. tauto. }
    do 6 (destruct i as [|i];
          [injection Hi as <-; by rewrite ?lookup_insert_ne|]).
    discriminate Hi.
Qed.

(** The statement above at the notebook's own inputs with one more entry,
    under a key that is no field of MusicState: the run completes, and the
    result keeps the style and has lost the extra entry. *)
Lemma C8_state_grows_in_pipeline_order_witness :
  exists chunks w' final,
    stream (workflow stub_llm stub_write stub_tmp)
           (<["tempo" := VInt 90]> notebook_inputs) (start [])
      = (Ok chunks, w') /\
    length chunks = 6%nat /\
    last chunks = Some final /\
    final !! "style" = Some (VStr "Romantic era") /\
    final !! "tempo" = None.
Proof.
  destruct (stream_workflow_total stub_llm stub_write stub_tmp
              (<["tempo" := VInt 90]> notebook_inputs)
              "Create a happy piano piece in C major"
              (VStr "Romantic era") (start []))
    as (chunks & w' & Hrun).
  { vm_compute. reflexivity. }
  { vm_compute. reflexivity. }
  { intros rq. eexists. reflexivity. }
  { vm_compute. reflexivity. }
  destruct (C8_state_grows_in_pipeline_order _ _ _ _ _ _ _ Hrun)
    as (initial & final & Hlen & _ & _ & Hinit & Hlast & _ & _ & _ & _ & Hkeep).
  exists chunks, w', final. split; [exact Hrun|].
  split; [exact Hlen|]. split; [exact Hlast|].
  rewrite last_lookup, Hlen in Hlast.
  split.
  - rewrite (Hkeep _ _ "style" Hlast), Hinit.
    + vm_compute. reflexivity.
    + intros Hk. apply list_elem_of_In in Hk. simpl in Hk.
      repeat destruct Hk as [Hk|Hk]; try discriminate Hk. exact Hk.
  - rewrite (Hkeep _ _ "tempo" Hlast), Hinit.
    + vm_compute. reflexivity.
    + intros Hk. apply list_elem_of_In in Hk. simpl in Hk.
      repeat destruct Hk as [Hk|Hk]; try discriminate Hk. exact Hk.
Defined.

(** C1 (amended). The workflow does not check, before it starts, that the
    keys the stages read are present. The one check made before the first
    stage is the graph's own, and it is not about those keys: an input
    that holds none of the fields of MusicState is rejected with
    [InvalidUpdateError], nothing having run. For every other input a
    missing key is noticed only by the first stage that reads it, as a
    [KeyError] raised inside that stage before the stage's own request is
    sent. With 'musician_input' missing the run ends in the first stage and
    no request has been sent; with 'musician_input' present and 'style'
    missing, and a chat model that answers, the run ends in the fourth
    stage after the three requests of the melody, harmony and rhythm stages
    have been sent. In all three cases no file is written. *)
Theorem C1_missing_key_raises_inside_stage {G} `{RandomGen G}
    (llm : request -> result string) (midi_write : Score -> list byte)
    (tmp_name : nat -> string -> string)
    (inputs : gmap string value) (w : world G) :
  ((forall k, k ∈ MusicState_fields -> inputs !! k = None) ->
   app llm midi_write tmp_name inputs w = (Err InvalidUpdateError, w)) /\
  (forall k v,
      k ∈ MusicState_fields -> inputs !! k = Some v ->
      inputs !! "musician_input" = None ->
      app llm midi_write tmp_name inputs w
      = (Err (KeyError "musician_input"), w)) /\
  (forall input,
      inputs !! "musician_input" = Some input ->
      inputs !! "style" = None ->
      (forall rq, exists a, llm rq = Ok a) ->
      exists w' melody harmony rhythm,
        app llm midi_write tmp_name inputs w = (Err (KeyError "style"), w') /\
        calls w' =
          {| template := rhythm_template;
             arguments := [("melody", VStr melody);
                           ("harmony", VStr harmony)] |} ::
          {| template := harmony_template;
             arguments := [("melody", VStr melody)] |} ::
          {| template := melody_template;
             arguments := [("input", input)] |} :: calls w /\
        llm {| template := rhythm_template;
               arguments := [("melody", VStr melody);
                             ("harmony", VStr harmony)] |} = Ok rhythm /\
        files w' = files w).
Proof.
  split; [|split].
  - intros Hnone. apply app_Err. rewrite stream_workflow.
    by rewrite (proj2 (holds_none_true _ _) Hnone).
  - intros k v Hk Hv Hm. apply app_Err.
    rewrite stream_workflow_fields by exact (holds_none_false _ _ _ _ Hk Hv).
    cbv zeta. apply bind_Err. rewrite melody_generator_run.
    rewrite restrict_lookup_in by in_list. by rewrite Hm.
  - intros input Hm Hs Hllm.
    destruct (Hllm {| template := melody_template;
                      arguments := [("input", input)] |}) as [melody H1].
    destruct (Hllm {| template := harmony_template;
                      arguments := [("melody", VStr melody)] |})
      as [harmony H2].
    destruct (Hllm {| template := rhythm_template;
                      arguments := [("melody", VStr melody);
                                    ("harmony", VStr harmony)] |})
      as [rhythm H3].
    eexists _, melody, harmony, rhythm. split; [|split; [|split]].
    + apply app_Err.
      rewrite stream_workflow_fields
        by (eapply holds_none_false; [|exact Hm]; in_list).
      cbv zeta.
      assert (Hm0 : restrict MusicState_fields inputs !! "musician_input"
                    = Some input)
        by (rewrite restrict_lookup_in by in_list; exact Hm).
      assert (Hs0 : restrict MusicState_fields inputs !! "style" = None)
        by (rewrite restrict_lookup_in by in_list; exact Hs).
      set (s0 := restrict MusicState_fields inputs) in *.
      erewrite bind_Ok;
        [|by rewrite melody_generator_run, Hm0; unfold answer; rewrite H1].
      rewrite <- insert_union_singleton_l.
      erewrite bind_Ok;
        [|by rewrite harmony_creator_run, lookup_insert_eq;
             unfold answer; rewrite H2].
      rewrite <- insert_union_singleton_l.
      erewrite bind_Ok;
        [|by rewrite rhythm_analyzer_run; simplify_map_eq;
             unfold answer; rewrite H3].
      rewrite <- insert_union_singleton_l.
      apply bind_Err. rewrite style_adapter_run.
      rewrite !lookup_insert_ne by done. by rewrite Hs0.
    + reflexivity.
    + exact H3.
    + reflexivity.
Qed.

(** The statement above at the empty input, at an input without
    'musician_input' and at an input without 'style'. *)
Lemma C1_missing_key_raises_inside_stage_witness :
  app stub_llm stub_write stub_tmp ∅ (start [])
    = (Err InvalidUpdateError, start []) /\
  app stub_llm stub_write stub_tmp
      {[ "style" := VStr "Baroque" ]} (start [])
    = (Err (KeyError "musician_input"), start []) /\
  exists w',
    app stub_llm stub_write stub_tmp
        {[ "musician_input" := VStr "Create a happy piece" ]} (start [])
      = (Err (KeyError "style"), w') /\
    length (calls w') = 3%nat.
Proof.
  split; [|split].
  - apply (C1_missing_key_raises_inside_stage stub_llm stub_write stub_tmp
             ∅ (start [])).
    intros k _. apply lookup_empty.
  - apply (proj1 (proj2 (C1_missing_key_raises_inside_stage stub_llm
                           stub_write stub_tmp
                           {[ "style" := VStr "Baroque" ]} (start [])))
             "style" (VStr "Baroque")).
    + in_list.
    + vm_compute. reflexivity.
    + vm_compute. reflexivity.
  - assert (Hm : ({[ "musician_input" := VStr "Create a happy piece" ]}
                    : gmap string value) !! "musician_input"
                 = Some (VStr "Create a happy piece"))
      by (vm_compute; reflexivity).
    assert (Hs : ({[ "musician_input" := VStr "Create a happy piece" ]}
                    : gmap string value) !! "style" = None)
      by (vm_compute; reflexivity).
    assert (Hllm : forall rq, exists a, stub_llm rq = Ok a)
      by (intros rq; eexists; reflexivity).
    destruct (proj2 (proj2 (C1_missing_key_raises_inside_stage stub_llm
                              stub_write stub_tmp
                              {[ "musician_input" :=
                                   VStr "Create a happy piece" ]}
                              (start [])))
                (VStr "Create a happy piece") Hm Hs Hllm)
      as (w' & melody & harmony & rhythm & Hrun & Hcalls & _).
    exists w'. split; [exact Hrun|]. rewrite Hcalls. reflexivity.
Defined.

(** C1, as stated, fails: with no 'style' in the initial state, which the
    style stage reads, the run is not rejected before it starts; it ends
    inside the style stage with a [KeyError], after three requests to the
    chat model. *)
Lemma C1_counterexample :
  let inputs : gmap string value :=
    {[ "musician_input" := VStr "Create a happy piece" ]} in
  inputs !! "style" = None /\
  exists e w',
    app stub_llm stub_write stub_tmp inputs (start []) = (Err e, w') /\
    exn_class e = "KeyError" /\
    exn_class e <> "MissingInputError" /\
    length (calls w') = 3%nat /\
    calls (start []) = [].
Proof.
  split; [reflexivity|].
  exists (KeyError "style"). eexists.
  split; [vm_compute; reflexivity|].
  split; [reflexivity|]. split; [discriminate|]. by split.
Qed.

(** * Further properties of the encoder *)

Section DrawFacts.

Context {G : Type} `{RandomGen G}.

Lemma draws_app (a b : list nat) (g : G) :
  draws (a ++ b) g = draws b (draws a g).
Proof. revert g. induction a as [|n a IH]; intros g; [done|]. apply IH. Qed.

Lemma drawn_length (sizes : list nat) (g : G) :
  length (drawn sizes g) = length sizes.
Proof.
  revert g. induction sizes as [|n sizes IH]; intros g; [done|].
  simpl. by rewrite IH.
Qed.

(** Every index drawn lies in its range. *)
Lemma drawn_repeat_lt (n k : nat) (g : G) :
  (0 < n)%nat -> Forall (fun i => (i < n)%nat) (drawn (repeat n k) g).
Proof.
  intros Hn. revert g. induction k as [|k IH]; intros g; [constructor|].
  simpl. constructor; [by apply randbelow_lt | apply IH].
Qed.

(** A loop that picks from one non-empty sequence and builds something
    from the pick, in closed form. *)
Lemma repeatM_choice {A B} (seq : list A) (d : A) (f : A -> M G B)
    (f' : A -> B) (k : nat) (g : G) :
  seq <> [] ->
  (forall x s, In x seq -> f x s = (Ok (f' x), s)) ->
  repeatM k (x ← choice seq; f x) g =
  (Ok (map (fun i => f' (nth i seq d)) (drawn (repeat (length seq) k) g)),
   draws (repeat (length seq) k) g).
Proof.
  intros Hne Hf. revert g. induction k as [|k IH]; intros g; [done|].
  destruct (choice_total seq g Hne) as (x & Hc & Hx).
  cbn [repeatM repeat drawn draws map].
  erewrite bind_Ok; [|by erewrite bind_Ok;
                       [apply Hf; by eapply nth_error_In | exact Hc]].
  rewrite (bind_Ok _ _ _ _ _ (IH _)).
  by rewrite (nth_error_nth _ _ d Hx).
Qed.

End DrawFacts.

(** The pitches of the chord table, by position. *)
Lemma chords_by_index (i : nat) :
  (i < 9)%nat ->
  dict_find chords (nth i (keys chords) "") = Some (nth i (map snd chords) []).
Proof.
  intros Hi. do 9 (destruct i as [|i]; [reflexivity|]). lia.
Qed.

Section LoopFacts.

Context {G : Type} `{RandomGen G}.

(** The melody loop in closed form. *)
Lemma create_melody_run (scale_name : string) (scale : list string)
    (duration : nat) (g : G) :
  dict_find scales scale_name = Some scale ->
  create_melody scale_name duration g =
  (Ok (map (fun i => melody_note (nth i scale ""))
           (drawn (repeat (length scale) duration) g)),
   draws (repeat (length scale) duration) g).
Proof.
  intros Hs. destruct (scales_rooted _ _ Hs) as [rest ->].
  unfold create_melody.
  rewrite (bind_Ok _ _ _ _ _ (dict_get_Some _ _ _ g Hs)).
  by apply (repeatM_choice ("C" :: rest) "" (fun pc => mret (melody_note pc))).
Qed.

(** The chord loop in closed form. *)
Lemma create_chord_progression_run (duration : nat) (g : G) :
  create_chord_progression duration g =
  (Ok (map (fun i => harmony_chord (nth i (map snd chords) []))
           (drawn (repeat 9%nat duration) g)),
   draws (repeat 9%nat duration) g).
Proof.
  assert (Hlt : Forall (fun i => (i < 9)%nat) (drawn (repeat 9%nat duration) g))
    by (apply drawn_repeat_lt; lia).
  pose proof (repeatM_choice (keys chords) ""
                (fun name =>
                   pitches ← dict_get chords name;
                   ret (EChord {| chord_pitches := pitches;
                                  chord_quarterLength := 1 |}))
                (fun name => harmony_chord
                               (default [] (dict_find chords name)))
                duration g) as Hloop.
  unfold create_chord_progression. rewrite Hloop.
  - f_equal. f_equal. apply map_ext_Forall.
    eapply Forall_impl; [exact Hlt|]. intros i Hi. cbv beta.
    by rewrite (chords_by_index i Hi).
  - simpl. discriminate.
  - intros name s Hin. destruct (dict_find_keys chords name Hin) as [p Hp].
    rewrite (bind_Ok _ _ _ _ _ (dict_get_Some _ _ _ s Hp)). by rewrite Hp.
Qed.

End LoopFacts.

(** X1. [create_melody] raises [KeyError(scale_name)] for a name that is
    not in the scale table, before drawing anything. For a name of the
    table it draws exactly [duration] indices from [range(len(scale))],
    each within the scale, and returns, in order, one note per index: the
    scale's pitch class at that index, in octave 4. With [duration] 0 the
    part is empty and nothing is drawn. *)
Theorem create_melody_closed_form {G} `{RandomGen G}
    (scale_name : string) (duration : nat) (g : G) :
  match dict_find scales scale_name with
  | None =>
      create_melody scale_name duration g = (Err (KeyError scale_name), g)
  | Some scale =>
      let sizes := repeat (length scale) duration in
      create_melody scale_name duration g =
        (Ok (map (fun i => melody_note (nth i scale "")) (drawn sizes g)),
         draws sizes g) /\
      length (drawn sizes g) = duration /\
      Forall (fun i => (i < length scale)%nat) (drawn sizes g)
  end.
Proof.
  destruct (dict_find scales scale_name) as [scale|] eqn:Hs.
  - cbv zeta. split; [by apply create_melody_run|].
    split; [by rewrite drawn_length, repeat_length|].
    destruct (scales_rooted _ _ Hs) as [rest ->].
    apply drawn_repeat_lt. simpl. lia.
  - unfold create_melody.
    by rewrite (bind_Err _ _ _ _ _ (dict_get_None _ _ g Hs)).
Qed.

(** X2. [create_chord_progression] never raises: it draws exactly
    [duration] indices from [range(9)] and returns, in order, one chord of
    one beat per index, with the pitches of the chord table's entry at that
    index -- whatever scale was selected. *)
Theorem create_chord_progression_closed_form {G} `{RandomGen G}
    (duration : nat) (g : G) :
  let sizes := repeat 9%nat duration in
  create_chord_progression duration g =
    (Ok (map (fun i => harmony_chord (nth i (map snd chords) []))
             (drawn sizes g)),
     draws sizes g) /\
  length (drawn sizes g) = duration /\
  Forall (fun i => (i < length chords)%nat) (drawn sizes g).
Proof.
  cbv zeta. split; [apply create_chord_progression_run|].
  split; [by rewrite drawn_length, repeat_length|].
  apply drawn_repeat_lt. simpl. lia.
Qed.

Section EncoderClosedForm.

Context {G : Type} `{RandomGen G}.

(** The sampled beats and the final beat of both parts, in closed form. *)
Lemma compose_parts_closed_form (scale_name : string) (scale : list string)
    (g : G) :
  dict_find scales scale_name = Some scale ->
  let g1 := draws (repeat (length scale) 7) g in
  let g2 := draws (repeat 9%nat 7) g1 in
  let melody :=
    (map (fun i => melody_note (nth i scale ""))
         (drawn (repeat (length scale) 7) g)
     ++ [melody_note (nth 0 scale "")])%list in
  let sampled :=
    map (fun i => harmony_chord (nth i (map snd chords) []))
        (drawn (repeat 9%nat 7) g1) in
  compose_parts scale_name g =
  match final_chord_lookup scale_name with
  | Ok pitches =>
      (Ok (melody, (sampled ++ [harmony_chord pitches])%list), g2)
  | Err e => (Err e, g2)
  end.
Proof.
  intros Hs. cbv zeta.
  pose proof (create_melody_run scale_name scale 7 g Hs) as Hm.
  pose proof (create_chord_progression_run 7
                (draws (repeat (length scale) 7) g)) as Hc.
  destruct (scales_rooted _ _ Hs) as [rest ->].
  unfold compose_parts.
  rewrite (bind_Ok _ _ _ _ _ Hm), (bind_Ok _ _ _ _ _ Hc).
  rewrite (bind_Ok _ _ _ _ _ (dict_get_Some _ _ _ _ Hs)).
  unfold list_get at 1. cbn [nth_error nth].
  unfold mbind at 1, M_bind at 1, bind at 1, ret at 1.
  set (g2 := draws (repeat 9%nat 7) _).
  pose proof (final_chord_step scale_name g2) as Hf.
  unfold mbind, M_bind, bind in Hf |- *.
  rewrite (final_chord_name_pure scale_name g2) in Hf |- *.
  destruct (fst (final_chord_name scale_name tt)) as [name|e].
  - rewrite Hf. by destruct (final_chord_lookup scale_name).
  - by inversion Hf.
Qed.

(** The encoder reads two keys of the state, and nothing else of it. *)
Lemma midi_converter_piece_ext (state1 state2 : MusicState) (g : G) :
  state1 !! "composition" = state2 !! "composition" ->
  state1 !! "musician_input" = state2 !! "musician_input" ->
  midi_converter_piece state1 g = midi_converter_piece state2 g.
Proof.
  intros Hc Hm. unfold midi_converter_piece, getitem. by rewrite Hc, Hm.
Qed.

(** Selecting a scale draws once from [range(11)], or not at all. *)
Lemma select_scale_draws (user_input : string) (g : G) :
  let sel := if PyStr.contains "minor" user_input
                || PyStr.contains "major" user_input
             then [] else [11%nat] in
  exists name scale,
    select_scale user_input g = (Ok name, draws sel g) /\
    dict_find scales name = Some scale.
Proof.
  cbv zeta. unfold select_scale.
  destruct (PyStr.contains "minor" user_input).
  { by eexists "C minor", _. }
  destruct (PyStr.contains "major" user_input).
  { by eexists "C major", _. }
  assert (Hne : keys scales <> []) by (simpl; discriminate).
  destruct (choice_total (keys scales) g Hne) as (name & Hc & Hn).
  destruct (dict_find_keys scales name (nth_error_In _ _ Hn)) as [scale Hs].
  by exists name, scale.
Qed.

(** What the encoder does when its two keys are there and the request
    is a string: the draws it makes, whether or not the final chord is
    found. *)
Lemma midi_converter_piece_run (state : MusicState) content s (g : G) :
  state !! "composition" = Some content ->
  state !! "musician_input" = Some (VStr s) ->
  let user_input := PyStr.lower s in
  let sel := if PyStr.contains "minor" user_input
                || PyStr.contains "major" user_input
             then [] else [11%nat] in
  exists name scale,
    select_scale user_input g = (Ok name, draws sel g) /\
    dict_find scales name = Some scale /\
    snd (midi_converter_piece state g) =
      draws (sel ++ repeat (length scale) 7 ++ repeat 9%nat 7) g /\
    fst (midi_converter_piece state g) =
      match fst (compose_parts name (draws sel g)) with
      | Ok parts => Ok (assemble content parts.1 parts.2)
      | Err e => Err e
      end /\
    match final_chord_lookup name with
    | Ok _ => exists parts, fst (compose_parts name (draws sel g)) = Ok parts
    | Err e => fst (compose_parts name (draws sel g)) = Err e
    end.
Proof.
  intros Hc Hm. cbv zeta.
  destruct (select_scale_draws (PyStr.lower s) g)
    as (name & scale & Hsel & Hs).
  exists name, scale. split; [exact Hsel|]. split; [exact Hs|].
  rewrite (midi_converter_piece_unfold _ _ _ _ Hc Hm).
  rewrite (bind_Ok _ _ _ _ _ Hsel). rewrite !draws_app.
  set (g0 := draws _ g).
  pose proof (compose_parts_closed_form name scale g0 Hs) as Hcomp.
  cbv zeta in Hcomp. unfold mbind, M_bind, bind. rewrite Hcomp.
  destruct (final_chord_lookup name) as [pitches|e]; [|done].
  repeat split. by eexists.
Qed.

Lemma midi_converter_piece_no_composition (state : MusicState) (g : G) :
  state !! "composition" = None ->
  midi_converter_piece state g = (Err (KeyError "composition"), g).
Proof.
  intros Hc. unfold midi_converter_piece.
  by rewrite (bind_Err _ _ _ _ _ (getitem_None _ _ g Hc)).
Qed.

Lemma midi_converter_piece_no_input (state : MusicState) content (g : G) :
  state !! "composition" = Some content ->
  state !! "musician_input" = None ->
  midi_converter_piece state g = (Err (KeyError "musician_input"), g).
Proof.
  intros Hc Hm. unfold midi_converter_piece.
  rewrite (bind_Ok _ _ _ _ _ (getitem_Some _ _ _ g Hc)).
  by rewrite (bind_Err _ _ _ _ _ (getitem_None _ _ g Hm)).
Qed.

Lemma midi_converter_piece_not_str (state : MusicState) content n (g : G) :
  state !! "composition" = Some content ->
  state !! "musician_input" = Some (VInt n) ->
  midi_converter_piece state g = (Err (AttributeError "lower"), g).
Proof.
  intros Hc Hm. unfold midi_converter_piece.
  rewrite (bind_Ok _ _ _ _ _ (getitem_Some _ _ _ g Hc)).
  by rewrite (bind_Ok _ _ _ _ _ (getitem_Some _ _ _ g Hm)).
Qed.

End EncoderClosedForm.

(** X3. The encoder's use of the generator. When the state lacks
    'composition' or 'musician_input', or the latter is not a string, the
    encoder raises without drawing. Otherwise it draws once from
    [range(11)] unless the request names a minor or major key, then seven
    times from [range(len(scale))], then seven times from [range(9)] --
    14 or 15 draws in all -- and it has drawn all of them also when it
    then raises at the final chord lookup. *)
Theorem midi_converter_piece_draws {G} `{RandomGen G}
    (state : MusicState) (g : G) :
  match state !! "composition", state !! "musician_input" with
  | Some _, Some (VStr s) =>
      let user_input := PyStr.lower s in
      let sel := if PyStr.contains "minor" user_input
                    || PyStr.contains "major" user_input
                 then [] else [11%nat] in
      exists name scale,
        select_scale user_input g = (Ok name, draws sel g) /\
        dict_find scales name = Some scale /\
        snd (midi_converter_piece state g) =
          draws (sel ++ repeat (length scale) 7 ++ repeat 9%nat 7) g /\
        length (sel ++ repeat (length scale) 7 ++ repeat 9%nat 7)
          = (length sel + 14)%nat
  | Some _, Some (VInt _) =>
      midi_converter_piece state g = (Err (AttributeError "lower"), g)
  | Some _, None =>
      midi_converter_piece state g = (Err (KeyError "musician_input"), g)
  | None, _ =>
      midi_converter_piece state g = (Err (KeyError "composition"), g)
  end.
Proof.
  destruct (state !! "composition") as [content|] eqn:Hc;
    [|by apply midi_converter_piece_no_composition].
  destruct (state !! "musician_input") as [[s|n]|] eqn:Hm;
    [|by eapply midi_converter_piece_not_str
     |by eapply midi_converter_piece_no_input].
  destruct (midi_converter_piece_run state content s g Hc Hm)
    as (name & scale & Hsel & Hs & Hd & _).
  cbv zeta. exists name, scale. do 3 (split; [done|]).
  rewrite !length_app, !repeat_length. lia.
Qed.

(** The entries of the chord table: three or four pitches, all in octave
    4, the first one C4. *)
Lemma chords_shape (name : string) (pitches : list string) :
  dict_find chords name = Some pitches ->
  (length pitches = 3%nat \/ length pitches = 4%nat) /\
  head pitches = Some "C4" /\
  Forall (fun p => exists pc, p = pc +:+ "4") pitches.
Proof.
  intros Hp.
  assert (Hin : In pitches (map snd chords)).
  { revert Hp. generalize chords. intros d.
    induction d as [|[k v] d IH]; cbn [dict_find]; [done|].
    destruct (String.eqb k name); [intros [= ->]; by left|].
    intros Hd. right. by apply IH. }
  assert (Hoct : forall p,
             (exists c, p = String c "4") \/
             (exists c c', p = String c (String c' "4")) ->
             exists pc, p = pc +:+ "4").
  { intros p [[c ->]|(c & c' & ->)];
      [by exists (String c "") | by exists (String c (String c' ""))]. }
  clear Hp. revert pitches Hin. apply List.Forall_forall. simpl.
  repeat (constructor;
          [split; [simpl; tauto|]; split; [reflexivity|];
           repeat (constructor; [apply Hoct; eauto|]); constructor|]).
  constructor.
Qed.

(** X4. The score depends on the state only through 'musician_input' and,
    for its text, 'composition': two states with the same musician_input
    that both have a composition give, from the same generator state, the
    same melody and harmony parts, the same tempo, the same exception if
    any, and leave the generator in the same state. The texts the chat
    model produced (melody, harmony, rhythm, composition) never reach the
    notes. *)
Theorem encoder_ignores_generated_text {G} `{RandomGen G}
    (state1 state2 : MusicState) (g : G) :
  state1 !! "musician_input" = state2 !! "musician_input" ->
  is_Some (state1 !! "composition") ->
  is_Some (state2 !! "composition") ->
  snd (midi_converter_piece state1 g) = snd (midi_converter_piece state2 g) /\
  match fst (midi_converter_piece state1 g),
        fst (midi_converter_piece state2 g) with
  | Ok sc1, Ok sc2 => parts sc1 = parts sc2 /\ tempos sc1 = tempos sc2
  | Err e1, Err e2 => e1 = e2
  | _, _ => False
  end.
Proof.
  intros Hm [c1 Hc1] [c2 Hc2].
  destruct (state1 !! "musician_input") as [[s|n]|] eqn:Hm1.
  - rewrite (midi_converter_piece_unfold _ _ _ _ Hc1 Hm1).
    rewrite (midi_converter_piece_unfold _ _ _ _ Hc2 (eq_sym Hm)).
    unfold mbind, M_bind, bind.
    destruct (select_scale (PyStr.lower s) g) as [[name|e] g1]; [|done].
    by destruct (compose_parts name g1) as [[[melody harmony]|e] g2].
  - rewrite (midi_converter_piece_not_str _ _ _ _ Hc1 Hm1).
    by rewrite (midi_converter_piece_not_str _ _ _ _ Hc2 (eq_sym Hm)).
  - rewrite (midi_converter_piece_no_input _ _ _ Hc1 Hm1).
    by rewrite (midi_converter_piece_no_input _ _ _ Hc2 (eq_sym Hm)).
Qed.

(** The statement above at two states that differ in everything but the
    request. *)
Lemma encoder_ignores_generated_text_witness :
  let state1 : MusicState :=
    {[ "musician_input" := VStr "A hymn in G major";
       "composition" := VStr "first text" ]} in
  let state2 : MusicState :=
    {[ "musician_input" := VStr "A hymn in G major";
       "composition" := VInt 7; "melody" := VStr "c d e" ]} in
  snd (midi_converter_piece state1 [5; 4; 3]%nat)
  = snd (midi_converter_piece state2 [5; 4; 3]%nat).
Proof.
  cbv zeta.
  refine (proj1 (encoder_ignores_generated_text _ _ _ _ _ _)).
  - vm_compute. reflexivity.
  - exists (VStr "first text"). vm_compute. reflexivity.
  - exists (VInt 7). vm_compute. reflexivity.
Defined.

(** X5. The layout of every score the encoder produces: the composition
    value as a text expression, then the melody part, then the harmony
    part, each appended at the end, then the tempo mark inserted at offset
    0. The melody part holds only notes, each in octave 4; the harmony
    part holds only chords, each with three or four pitches, all in octave
    4, the first of them C4. *)
Theorem score_layout {G} `{RandomGen G} (state : MusicState) (g : G) sc g' :
  midi_converter_piece state g = (Ok sc, g') ->
  exists content melody harmony,
    state !! "composition" = Some content /\
    sc = [ (AtEnd, TextExpression content); (AtEnd, Part melody);
           (AtEnd, Part harmony); (AtOffset 0, MetronomeMark 60) ] /\
    Forall (fun e => exists pc, e = melody_note pc) melody /\
    Forall (fun e => exists pitches,
                e = harmony_chord pitches /\
                (length pitches = 3%nat \/ length pitches = 4%nat) /\
                head pitches = Some "C4" /\
                Forall (fun p => exists pc, p = pc +:+ "4") pitches)
           harmony.
Proof.
  intros Hrun.
  destruct (midi_converter_piece_inv _ _ _ _ Hrun)
    as (content & s & name & g1 & rest & notes & cs & pitches &
        Hc & _ & Hs & _ & Hf & _ & Hnall & _ & Hcall & ->).
  destruct (final_chord_found name pitches (select_scale_In _ _ _ _ Hs) Hf)
    as (_ & Hd & _).
  eexists content, _, _. split; [exact Hc|]. split; [reflexivity|]. split.
  - apply Forall_app. split.
    + eapply Forall_impl; [exact Hnall|].
      intros e (pc & _ & ->). by exists pc.
    + constructor; [by exists "C" | constructor].
  - apply Forall_app. split.
    + eapply Forall_impl; [exact Hcall|].
      intros e (nm & ps & Hps & ->). exists ps.
      split; [reflexivity | by apply (chords_shape nm)].
    + constructor; [|constructor]. exists pitches.
      split; [reflexivity | by apply (chords_shape name)].
Qed.

(** The statement above at a request for a minor key. *)
Lemma score_layout_witness :
  exists sc g' melody harmony,
    midi_converter_piece (encoder_state "Nocturne in E minor")
      [2; 7; 1; 8; 2; 8; 1; 8; 2; 8; 4; 5; 9; 0]%nat = (Ok sc, g') /\
    sc = [ (AtEnd, TextExpression (VStr "tinyNotation: 4/4 c4 d e f"));
           (AtEnd, Part melody); (AtEnd, Part harmony);
           (AtOffset 0, MetronomeMark 60) ].
Proof.
  destruct (midi_converter_piece (encoder_state "Nocturne in E minor")
              [2; 7; 1; 8; 2; 8; 1; 8; 2; 8; 4; 5; 9; 0]%nat)
    as [[sc|e] g'] eqn:Hrun.
  - destruct (score_layout _ _ _ _ Hrun)
      as (content & melody & harmony & Hc & Hsc & _).
    exists sc, g', melody, harmony. split; [reflexivity|].
    vm_compute in Hc. injection Hc as <-. exact Hsc.
  - vm_compute in Hrun. discriminate Hrun.
Defined.

(** X6. What [midi_converter] does to the process. It never calls the
    chat model. When the score could be built it creates the next
    temporary file, writes the score's bytes to it, touches no other
    path, and returns exactly one key, 'midi_file', holding that path. When the score could not be built
    it raises the encoder's exception and the file system is as before.
    In both cases the generator has advanced as the encoder left it. *)
Theorem midi_converter_effects {G} `{RandomGen G}
    (midi_write : Score -> list byte) (tmp_name : nat -> string -> string)
    (state : MusicState) (w : world G) :
  let name := tmp_name (tmp_count w) ".mid" in
  let '(r, w') := midi_converter midi_write tmp_name state w in
  calls w' = calls w /\
  rng w' = snd (midi_converter_piece state (rng w)) /\
  match r with
  | Ok update =>
      update = {[ "midi_file" := VStr name ]} /\
      tmp_count w' = S (tmp_count w) /\
      exists sc,
        fst (midi_converter_piece state (rng w)) = Ok sc /\
        files w' = <[name := midi_write sc]> (files w) /\
        files w' !! name = Some (midi_write sc) /\
        forall path, path <> name -> files w' !! path = files w !! path
  | Err e =>
      fst (midi_converter_piece state (rng w)) = Err e /\
      files w' = files w /\ tmp_count w' = tmp_count w
  end.
Proof.
  cbv zeta.
  destruct (midi_converter_piece state (rng w)) as [[sc|e] g'] eqn:Hp.
  - rewrite (midi_converter_Ok midi_write tmp_name _ _ _ _ Hp). cbv zeta.
    cbn [calls rng files tmp_count fst snd].
    repeat split. exists sc. rewrite insert_insert_eq.
    split; [reflexivity|]. split; [reflexivity|].
    split; [apply lookup_insert_eq|].
    intros path Hne. by rewrite lookup_insert_ne.
  - rewrite (midi_converter_Err midi_write tmp_name _ _ _ _ Hp).
    by cbn [calls rng files tmp_count fst snd].
Qed.

Lemma lower_ascii_idempotent (c : ascii) :
  PyStr.lower_ascii (PyStr.lower_ascii c) = PyStr.lower_ascii c.
Proof. by destruct c as [[] [] [] [] [] [] [] []]. Qed.

Lemma lower_idempotent (s : string) :
  PyStr.lower (PyStr.lower s) = PyStr.lower s.
Proof.
  induction s as [|c s IH]; [done|].
  cbn [PyStr.lower]. by rewrite lower_ascii_idempotent, IH.
Qed.

(** X16. The encoder does not see the case of the request: two requests
    with the same lower-casing give the same score, exception and
    generator state, and so does a request and its lower-casing. *)
Theorem encoder_case_insensitive {G} `{RandomGen G}
    (state : MusicState) (s s' : string) (g : G) :
  PyStr.lower s = PyStr.lower s' ->
  midi_converter_piece (<["musician_input" := VStr s]> state) g
  = midi_converter_piece (<["musician_input" := VStr s']> state) g /\
  midi_converter_piece (<["musician_input" := VStr (PyStr.lower s)]> state) g
  = midi_converter_piece (<["musician_input" := VStr s]> state) g.
Proof.
  assert (Hcase : forall a b, PyStr.lower a = PyStr.lower b ->
            midi_converter_piece (<["musician_input" := VStr a]> state) g
            = midi_converter_piece (<["musician_input" := VStr b]> state) g).
  { intros a b Hab.
    destruct (state !! "composition") as [content|] eqn:Hc.
    - rewrite (midi_converter_piece_unfold _ content a g);
        [|by rewrite lookup_insert_ne | apply lookup_insert_eq].
      rewrite (midi_converter_piece_unfold _ content b g);
        [|by rewrite lookup_insert_ne | apply lookup_insert_eq].
      by rewrite Hab.
    - rewrite !midi_converter_piece_no_composition; [done| |];
        by rewrite lookup_insert_ne. }
  intros Hlow. split; [by apply Hcase|].
  apply Hcase. apply lower_idempotent.
Qed.

(** The statement above at a request in capitals. *)
Lemma encoder_case_insensitive_witness :
  midi_converter_piece
    (<["musician_input" := VStr "SONATA IN C MINOR"]> (encoder_state "")) []
  = midi_converter_piece
      (<["musician_input" := VStr "Sonata in C minor"]> (encoder_state ""))
      ([] : list nat).
Proof.
  apply (proj1 (encoder_case_insensitive (encoder_state "")
                  "SONATA IN C MINOR" "Sonata in C minor" [] eq_refl)).
Defined.

(** ** Words and substrings *)

Lemma rev_app_rev_app (w a b : string) :
  String.rev_app (String.rev_app w a) b = String.rev_app a (w +:+ b).
Proof.
  revert a b. induction w as [|c w IH]; intros a b; [done|].
  cbn [String.rev_app]. by rewrite IH.
Qed.

Lemma append_cons (c : ascii) (w s : string) :
  String c w +:+ s = String c (w +:+ s).
Proof. reflexivity. Qed.

Lemma append_empty_r (w : string) : w +:+ "" = w.
Proof.
  induction w as [|c w IH]; [done|]. rewrite append_cons. by f_equal.
Qed.

Lemma rev_rev_app (w : string) : String.rev (String.rev_app w "") = w.
Proof.
  unfold String.rev. rewrite rev_app_rev_app. cbn [String.rev_app].
  apply append_empty_r.
Qed.

(** Reading on inside a word. *)
Lemma split_go_word (acc w s : string) :
  no_space w = true ->
  PyStr.split_go (Some acc) (w +:+ s) =
  PyStr.split_go (Some (String.rev_app w acc)) s.
Proof.
  revert acc. induction w as [|c w IH]; intros acc Hw; [done|].
  cbn [no_space] in Hw. apply andb_true_iff in Hw as [Hc Hw].
  apply negb_true_iff in Hc.
  rewrite append_cons. cbn [PyStr.split_go String.rev_app].
  rewrite Hc. by apply IH.
Qed.

(** [split] takes a word off the front of a text, up to the end or the
    next separator. *)
Lemma split_word (w s : string) :
  is_word w = true ->
  PyStr.split (w +:+ s) =
  match s with
  | EmptyString => [w]
  | String c s' =>
      if PyStr.is_space c then w :: PyStr.split s' else PyStr.split (w +:+ s)
  end.
Proof.
  intros Hw. destruct s as [|c s']; [|destruct (PyStr.is_space c) eqn:Hc];
    [| |done].
  all: apply andb_true_iff in Hw as [Hne Hw].
  all: destruct w as [|a w]; [done|].
  all: cbn [no_space] in Hw; apply andb_true_iff in Hw as [Ha Hw].
  all: apply negb_true_iff in Ha.
  all: unfold PyStr.split; rewrite append_cons; cbn [PyStr.split_go];
    rewrite Ha.
  all: cbn [default]; rewrite (split_go_word _ w _ Hw).
  all: change (String.rev_app w (String a ""))
         with (String.rev_app (String a w) "").
  - cbn [PyStr.split_go]. by rewrite rev_rev_app.
  - cbn [PyStr.split_go]. rewrite Hc. by rewrite rev_rev_app.
Qed.

Lemma split_no_word (w : string) :
  no_space w = true -> length (PyStr.split w) <= 1.
Proof.
  intros Hw. destruct w as [|a w]; [simpl; lia|].
  rewrite <- (append_empty_r (String a w)).
  rewrite split_word; [simpl; lia|].
  unfold is_word. by rewrite Hw.
Qed.

(** X7. The name under which the final chord is looked up is made of the
    first two words of the scale name, joined by one blank: a name of two
    words is looked up under itself, whatever follows the second word is
    dropped, and a name of fewer than two words raises [IndexError]. *)
Theorem final_chord_name_words {S} (s : S) :
  (forall w0 w1 rest,
      is_word w0 = true -> is_word w1 = true ->
      (rest = "" \/ exists c r, PyStr.is_space c = true /\ rest = String c r) ->
      final_chord_name (w0 +:+ " " +:+ w1 +:+ rest) s
      = (Ok (w0 +:+ " " +:+ w1), s)) /\
  (forall w, no_space w = true ->
      final_chord_name w s = (Err IndexError, s)).
Proof.
  split.
  - intros w0 w1 rest H0 H1 Hrest.
    assert (Hsplit : exists tl,
               PyStr.split (w0 +:+ " " +:+ w1 +:+ rest) = w0 :: w1 :: tl).
    { rewrite (split_word w0 _ H0). rewrite append_cons.
      change (PyStr.is_space " ") with true. cbv iota.
      change ("" +:+ w1 +:+ rest) with (w1 +:+ rest).
      rewrite (split_word w1 _ H1).
      destruct Hrest as [->|(c & r & Hc & ->)]; [by eexists|].
      rewrite Hc. by eexists. }
    destruct Hsplit as [tl Hsplit].
    unfold final_chord_name. rewrite Hsplit. reflexivity.
  - intros w Hw. pose proof (split_no_word w Hw) as Hlen.
    unfold final_chord_name, mbind, M_bind, bind, list_get.
    destruct (PyStr.split w) as [|a [|b l]]; [done|done|simpl in Hlen; lia].
Qed.

(** The statement above at 'C whole tone' and at a one-word name. *)
Lemma final_chord_name_words_witness :
  final_chord_name ("C" +:+ " " +:+ "whole" +:+ " tone") tt
    = (Ok "C whole", tt) /\
  final_chord_name "Cmajor" tt = (Err IndexError, tt).
Proof.
  split.
  - apply (proj1 (final_chord_name_words tt) "C" "whole" " tone");
      [reflexivity | reflexivity |].
    right. exists " "%char, "tone". by split.
  - apply (proj2 (final_chord_name_words tt) "Cmajor"). reflexivity.
Defined.

Lemma prefix_spec (a b : string) :
  String.prefix a b = true <-> exists post, b = a +:+ post.
Proof.
  revert b. induction a as [|c a IH]; intros b.
  - split; [intros _; by exists b | by destruct b].
  - destruct b as [|d b]; simpl.
    + split; [discriminate | by intros [post ?]].
    + destruct (ascii_dec c d) as [->|Hne].
      * rewrite IH. split; intros [post Hp]; exists post.
        -- rewrite append_cons. by rewrite Hp.
        -- rewrite append_cons in Hp. by injection Hp.
      * split; [discriminate|]. intros [post Hp].
        rewrite append_cons in Hp. by injection Hp.
Qed.

(** ['needle' in hay] holds exactly when [hay] is some text, the needle,
    some text. *)
Lemma contains_spec (needle hay : string) :
  PyStr.contains needle hay = true <->
  exists pre post, hay = pre +:+ needle +:+ post.
Proof.
  induction hay as [|c hay IH]; cbn [PyStr.contains].
  - rewrite orb_false_r, prefix_spec. split.
    + intros [post Hp]. by exists "", post.
    + intros (pre & post & Hp). destruct pre; [by exists post|done].
  - rewrite orb_true_iff, prefix_spec, IH. split.
    + intros [[post Hp]|(pre & post & Hp)].
      * by exists "", post.
      * exists (String c pre), post. rewrite append_cons. by rewrite Hp.
    + intros (pre & post & Hp). destruct pre as [|d pre].
      * left. by exists post.
      * right. rewrite append_cons in Hp. injection Hp as _ Hp.
        by exists pre, post.
Qed.

(** X8. The keyword test of scale selection is a substring test on the
    lower-cased request: the request's lower-casing having 'minor'
    anywhere inside it -- also inside a longer word -- selects 'C minor';
    failing that, 'major' anywhere inside it selects 'C major'; neither
    consults the generator. Only a request with neither substring leads to
    [random.choice]. *)
Theorem select_scale_by_substring {G} `{RandomGen G}
    (user_input : string) (g : G) :
  let has word := exists pre post, user_input = pre +:+ word +:+ post in
  (has "minor" -> select_scale user_input g = (Ok "C minor", g)) /\
  (~ has "minor" -> has "major" ->
   select_scale user_input g = (Ok "C major", g)) /\
  (~ has "minor" -> ~ has "major" ->
   select_scale user_input g = choice (keys scales) g).
Proof.
  cbv zeta. unfold select_scale.
  destruct (PyStr.contains "minor" user_input) eqn:Hminor.
  - apply contains_spec in Hminor. by repeat split.
  - assert (Hno : ~ exists pre post, user_input = pre +:+ "minor" +:+ post).
    { intros Hc. apply contains_spec in Hc. congruence. }
    split; [done|].
    destruct (PyStr.contains "major" user_input) eqn:Hmajor.
    + apply contains_spec in Hmajor. by split.
    + split; [|done]. intros _ Hc. apply contains_spec in Hc. congruence.
Qed.

(** The statement above at requests where the keyword sits inside a
    longer word. *)
Lemma select_scale_by_substring_witness :
  select_scale (PyStr.lower "Holiday on Minorca") [3%nat]
    = (Ok "C minor", [3%nat]) /\
  select_scale (PyStr.lower "The majority sings") [3%nat]
    = (Ok "C major", [3%nat]).
Proof.
  split.
  - apply (proj1 (select_scale_by_substring _ [3%nat])).
    by exists "holiday on ", "ca".
  - apply (proj1 (proj2 (select_scale_by_substring _ [3%nat]))).
    + intros Hc. apply contains_spec in Hc. vm_compute in Hc. discriminate Hc.
    + by exists "the ", "ity sings".
Defined.

(** * Further properties of the stages and of the workflow *)

Section RunFacts.

Context {G : Type} `{RandomGen G}.
Variable llm : request -> result string.
Variable midi_write : Score -> list byte.
Variable tmp_name : nat -> string -> string.

(** A whole run, stage by stage. *)
Lemma app_run (inputs : gmap string value) (w : world G) :
  app llm midi_write tmp_name inputs w =
  if holds_none MusicState_fields inputs then (Err InvalidUpdateError, w)
  else
  match inputs !! "musician_input" with
  | None => (Err (KeyError "musician_input"), w)
  | Some input =>
      let w1 := log_call (melody_request input) w in
      match llm (melody_request input) with
      | Err e => (Err e, w1)
      | Ok melody =>
          let w2 := log_call (harmony_request (VStr melody)) w1 in
          match llm (harmony_request (VStr melody)) with
          | Err e => (Err e, w2)
          | Ok harmony =>
              let rq3 := rhythm_request (VStr melody) (VStr harmony) in
              let w3 := log_call rq3 w2 in
              match llm rq3 with
              | Err e => (Err e, w3)
              | Ok rhythm =>
                  match inputs !! "style" with
                  | None => (Err (KeyError "style"), w3)
                  | Some style =>
                      let rq4 := style_request style (VStr melody)
                                   (VStr harmony) (VStr rhythm) in
                      let w4 := log_call rq4 w3 in
                      match llm rq4 with
                      | Err e => (Err e, w4)
                      | Ok composition =>
                          let s4 := generated
                                      (restrict MusicState_fields inputs)
                                      melody harmony rhythm composition in
                          match midi_converter midi_write tmp_name s4 w4 with
                          | (Ok update, w5) => (Ok (update ∪ s4), w5)
                          | (Err e, w5) => (Err e, w5)
                          end
                      end
                  end
              end
          end
      end
  end.
Proof.
  unfold app, invoke. unfold mbind at 1, M_bind at 1, bind at 1.
  rewrite stream_workflow.
  destruct (holds_none MusicState_fields inputs); [done|].
  cbv zeta.
  rewrite <- (restrict_lookup_in MusicState_fields inputs "musician_input")
    by in_list.
  rewrite <- (restrict_lookup_in MusicState_fields inputs "style")
    by in_list.
  set (s0 := restrict MusicState_fields inputs).
  unfold mbind, M_bind, bind.
  rewrite melody_generator_run.
  destruct (s0 !! "musician_input") as [input|] eqn:Hm; [|done].
  unfold answer at 1. fold (melody_request input).
  destruct (llm (melody_request input)) as [melody|e]; [|done].
  rewrite <- insert_union_singleton_l.
  rewrite harmony_creator_run, lookup_insert_eq.
  unfold answer at 1. fold (harmony_request (VStr melody)).
  destruct (llm (harmony_request (VStr melody))) as [harmony|e]; [|done].
  rewrite <- insert_union_singleton_l.
  rewrite rhythm_analyzer_run.
  rewrite (lookup_insert_ne _ "harmony" "melody") by done.
  rewrite !lookup_insert_eq.
  unfold answer at 1. fold (rhythm_request (VStr melody) (VStr harmony)).
  destruct (llm (rhythm_request _ _)) as [rhythm|e]; [|done].
  rewrite <- insert_union_singleton_l.
  rewrite style_adapter_run.
  rewrite !(lookup_insert_ne _ _ "style") by done.
  rewrite (lookup_insert_ne _ "rhythm" "melody") by done.
  rewrite (lookup_insert_ne _ "harmony" "melody") by done.
  rewrite (lookup_insert_ne _ "rhythm" "harmony") by done.
  rewrite !lookup_insert_eq.
  destruct (s0 !! "style") as [style|] eqn:Hs; [|done].
  unfold answer at 1.
  fold (style_request style (VStr melody) (VStr harmony) (VStr rhythm)).
  destruct (llm (style_request _ _ _ _)) as [composition|e]; [|done].
  rewrite <- insert_union_singleton_l.
  fold (generated s0 melody harmony rhythm composition).
  by destruct (midi_converter _ _ _ _) as [[update|e] w5].
Qed.

End RunFacts.

(** X9. The contract of the four generative stages. Each reads its keys
    in a fixed order before doing anything else: if one is missing it
    raises [KeyError] for the first missing one and nothing has happened
    -- no request was sent. If all are there it sends exactly one request,
    whose arguments are the values read, in that order, and returns the
    chat model's answer under the one key it owns, or raises the chat
    model's exception unchanged. It never touches the generator or the
    file system. *)
Theorem generative_stage_contract {G} `{RandomGen G}
    (llm : request -> result string) (f : @node G) (c : contract) :
  In (f, c) (generative_stages llm) ->
  forall (state : MusicState) (w : world G),
    match first_missing state (reads c) with
    | Some k => f state w = (Err (KeyError k), w)
    | None =>
        exists rq,
          In (template rq) stage_templates /\
          Forall2 (fun k v => state !! k = Some v)
                  (reads c) (map snd (arguments rq)) /\
          f state w =
            (match llm rq with
             | Ok a => Ok {[ writes c := VStr a ]}
             | Err e => Err e
             end, log_call rq w)
    end.
Proof.
  intros Hin state w. unfold generative_stages in Hin. simpl in Hin.
  destruct Hin as [[= <- <-]|[[= <- <-]|[[= <- <-]|[[= <- <-]|[]]]]];
    cbn [reads writes first_missing].
  - rewrite melody_generator_run.
    destruct (state !! "musician_input") as [input|] eqn:H1; [|done].
    exists (melody_request input).
    split; [simpl; tauto|]. split; [by repeat constructor|].
    unfold answer, melody_request. by destruct (llm _).
  - rewrite harmony_creator_run.
    destruct (state !! "melody") as [melody|] eqn:H1; [|done].
    exists (harmony_request melody).
    split; [simpl; tauto|]. split; [by repeat constructor|].
    unfold answer, harmony_request. by destruct (llm _).
  - rewrite rhythm_analyzer_run.
    destruct (state !! "melody") as [melody|] eqn:H1; [|done].
    destruct (state !! "harmony") as [harmony|] eqn:H2; [|done].
    exists (rhythm_request melody harmony).
    split; [simpl; tauto|]. split; [by repeat constructor|].
    unfold answer, rhythm_request. by destruct (llm _).
  - rewrite style_adapter_run.
    destruct (state !! "style") as [style|] eqn:H1; [|done].
    destruct (state !! "melody") as [melody|] eqn:H2; [|done].
    destruct (state !! "harmony") as [harmony|] eqn:H3; [|done].
    destruct (state !! "rhythm") as [rhythm|] eqn:H4; [|done].
    exists (style_request style melody harmony rhythm).
    split; [simpl; tauto|]. split; [by repeat constructor|].
    unfold answer, style_request. by destruct (llm _).
Qed.

(** The statement above at the rhythm stage, on a state without
    'harmony'. *)
Lemma generative_stage_contract_witness :
  rhythm_analyzer stub_llm {[ "melody" := VStr "c d e" ]} (start [])
  = (Err (KeyError "harmony"), start []).
Proof.
  assert (Hin : In (rhythm_analyzer stub_llm,
                    {| reads := ["melody"; "harmony"]; writes := "rhythm" |})
                   (generative_stages (G:=list nat) stub_llm))
    by (simpl; tauto).
  pose proof (generative_stage_contract stub_llm _ _ Hin
                {[ "melody" := VStr "c d e" ]} (start [])) as Hc.
  vm_compute first_missing in Hc. exact Hc.
Defined.

(** X10. Every one of the five stages depends on the state only through
    the keys of its contract: on two states that agree on those keys it
    does the same, whatever else the states hold. *)
Theorem stage_reads_only {G} `{RandomGen G}
    (llm : request -> result string) (midi_write : Score -> list byte)
    (tmp_name : nat -> string -> string) (f : @node G) (c : contract) :
  In (f, c) (stages llm midi_write tmp_name) ->
  forall (state1 state2 : MusicState) (w : world G),
    Forall (fun k => state1 !! k = state2 !! k) (reads c) ->
    f state1 w = f state2 w.
Proof.
  intros Hin state1 state2 w Hagree.
  unfold stages, generative_stages in Hin. simpl in Hin.
  destruct Hin
    as [[= <- <-]|[[= <- <-]|[[= <- <-]|[[= <- <-]|[[= <- <-]|[]]]]]];
    cbn [reads] in Hagree.
  - apply Forall_cons in Hagree as [H1 _].
    by rewrite !melody_generator_run, H1.
  - apply Forall_cons in Hagree as [H1 _].
    by rewrite !harmony_creator_run, H1.
  - apply Forall_cons in Hagree as [H1 [H2 _]%Forall_cons].
    by rewrite !rhythm_analyzer_run, H1, H2.
  - apply Forall_cons in Hagree
      as [H1 [H2 [H3 [H4 _]%Forall_cons]%Forall_cons]%Forall_cons].
    by rewrite !style_adapter_run, H1, H2, H3, H4.
  - apply Forall_cons in Hagree as [H1 [H2 _]%Forall_cons].
    unfold midi_converter, mbind, M_bind, bind, with_random.
    by rewrite (midi_converter_piece_ext state1 state2 _ H1 H2).
Qed.

(** The statement above at the harmony stage, on two states with the
    same melody. *)
Lemma stage_reads_only_witness :
  harmony_creator stub_llm
    {[ "melody" := VStr "c d e"; "style" := VStr "Baroque" ]} (start [])
  = harmony_creator stub_llm
      {[ "melody" := VStr "c d e"; "rhythm" := VInt 4 ]} (start []).
Proof.
  apply (stage_reads_only stub_llm stub_write stub_tmp
           (harmony_creator stub_llm)
           {| reads := ["melody"]; writes := "harmony" |}).
  - simpl. tauto.
  - constructor; [|constructor]. vm_compute. reflexivity.
Defined.

(** The final chord lookup fails with a [KeyError], and only for the
    eight scales the chord table has no chord for. *)
Lemma final_chord_missing (name : string) (e : exn) :
  In name (keys scales) -> final_chord_lookup name = Err e ->
  In name scales_without_chord /\ exn_class e = "KeyError".
Proof.
  intros Hin Hf. simpl in Hin.
  repeat (destruct Hin as [<-|Hin];
          [first [discriminate Hf
                 | injection Hf as <-; split; [simpl; tauto | reflexivity]]|]).
  destruct Hin.
Qed.

(** How the encoder can fail. *)
Lemma midi_converter_piece_Err {G} `{RandomGen G}
    (state : MusicState) (g : G) e g' :
  midi_converter_piece state g = (Err e, g') ->
  (state !! "composition" = None /\ e = KeyError "composition") \/
  (state !! "musician_input" = None /\ e = KeyError "musician_input") \/
  (exists n, state !! "musician_input" = Some (VInt n) /\
             e = AttributeError "lower") \/
  (exists s name,
      state !! "musician_input" = Some (VStr s) /\
      fst (select_scale (PyStr.lower s) g) = Ok name /\
      In name scales_without_chord /\
      final_chord_lookup name = Err e).
Proof.
  intros Hrun.
  destruct (state !! "composition") as [content|] eqn:Hc; cycle 1.
  { left. rewrite (midi_converter_piece_no_composition _ _ Hc) in Hrun.
    by injection Hrun as <- _. }
  destruct (state !! "musician_input") as [[s|n]|] eqn:Hm.
  - right. right. right.
    destruct (midi_converter_piece_run state content s g Hc Hm)
      as (name & scale & Hsel & Hs & _ & Hfst & Hlook).
    rewrite Hrun in Hfst. cbn [fst] in Hfst.
    destruct (final_chord_lookup name) as [pitches|e'] eqn:Hf.
    + destruct Hlook as [parts Hparts]. by rewrite Hparts in Hfst.
    + rewrite Hlook in Hfst. injection Hfst as ->.
      exists s, name. split; [done|]. rewrite Hsel. split; [done|].
      split; [|done].
      by apply (final_chord_missing name e'
                  (select_scale_In _ _ _ _ Hsel) Hf).
  - right. right. left.
    rewrite (midi_converter_piece_not_str _ _ _ _ Hc Hm) in Hrun.
    injection Hrun as <- _. by exists n.
  - right. left.
    rewrite (midi_converter_piece_no_input _ _ _ Hc Hm) in Hrun.
    by injection Hrun as <- _.
Qed.

Lemma generated_composition initial melody harmony rhythm composition :
  generated initial melody harmony rhythm composition !! "composition"
  = Some (VStr composition).
Proof. apply lookup_insert_eq. Qed.

Lemma generated_musician_input initial melody harmony rhythm composition :
  generated initial melody harmony rhythm composition !! "musician_input"
  = initial !! "musician_input".
Proof. unfold generated. by rewrite !lookup_insert_ne. Qed.

(** In the state the encoder is called on, the request is the one of the
    input. *)
Lemma generated_restrict_musician_input inputs melody harmony rhythm
    composition :
  generated (restrict MusicState_fields inputs) melody harmony rhythm
    composition !! "musician_input"
  = inputs !! "musician_input".
Proof.
  rewrite generated_musician_input. apply restrict_lookup_in. in_list.
Qed.

(** X11. The ways a run can fail. A failed run ends in exactly one of
    these five ways: the input holds none of the fields of MusicState, and
    the graph rejects it with [InvalidUpdateError] before any stage
    (nothing was sent); the input holds a declared field but not
    'musician_input' (nothing was sent); the last request sent made the
    chat model raise, and that exception comes out unchanged; 'style' is
    missing (three requests were sent and answered); or all four requests
    were sent and answered and the encoder raised, either [AttributeError]
    because 'musician_input' is not a string or the [KeyError] of a final
    chord lookup for one of the eight scales without a chord. The five are
    told apart by whether a declared field is present, by the number of
    requests sent and by whether the last one was answered. A failed run
    leaves the file system as it was. *)
Theorem app_failures {G} `{RandomGen G}
    (llm : request -> result string) (midi_write : Score -> list byte)
    (tmp_name : nat -> string -> string)
    (inputs : gmap string value) (w : world G) e w' :
  app llm midi_write tmp_name inputs w = (Err e, w') ->
  files w' = files w /\ tmp_count w' = tmp_count w /\
  exists f,
    failed_as llm inputs w w' e f /\
    forall f', failed_as llm inputs w w' e f' -> f' = f.
Proof.
  rewrite app_run.
  destruct (holds_none MusicState_fields inputs) eqn:Hnone.
  { intros [= <- <-]. do 2 (split; [done|]).
    rewrite holds_none_true in Hnone.
    exists NoDeclaredField. split; [done|].
    intros [] Hf'; cbn [failed_as] in Hf'; [done| | | |].
    - destruct Hf' as (_ & _ & (k & Hk & Hv) & _).
      rewrite (Hnone k Hk) in Hv. by destruct Hv.
    - destruct Hf' as (rq & rest & _ & _ & Hlen). lia.
    - destruct Hf' as (_ & _ & Hlen & _). lia.
    - destruct Hf' as (Hlen & _). lia. }
  destruct (inputs !! "musician_input") as [input|] eqn:Hm; cycle 1.
  { intros [= <- <-]. do 2 (split; [done|]).
    assert (Hsome : exists k, k ∈ MusicState_fields /\ is_Some (inputs !! k)).
    { destruct (decide (Forall (fun k => inputs !! k = None)
                          MusicState_fields)) as [Hall|Hex].
      - rewrite Forall_forall in Hall.
        rewrite (proj2 (holds_none_true _ _) Hall) in Hnone. done.
      - apply not_Forall_Exists in Hex; [|intros k; apply _].
        apply Exists_exists in Hex as (k & Hk & Hv).
        exists k. split; [done|]. by apply not_eq_None_Some. }
    exists NoMusicianInput. split; [done|].
    intros [] Hf'; cbn [failed_as] in Hf'; [|done| | |].
    - by destruct Hf' as ([=] & _).
    - destruct Hf' as (rq & rest & _ & _ & Hlen). lia.
    - destruct Hf' as (_ & _ & Hlen & _). lia.
    - destruct Hf' as (Hlen & _). lia. }
  cbv zeta.
  assert (Hraised : forall rq rest (w1 : world G),
             calls w1 = rq :: rest -> llm rq = Err e ->
             (length (calls w) < length (calls w1) <= 4 + length (calls w))%nat ->
             exists f, failed_as llm inputs w w1 e f /\
                       forall f', failed_as llm inputs w w1 e f' -> f' = f).
  { intros rq rest w1 Hc Hr Hlen. exists ModelRaised.
    split; [by exists rq, rest|].
    intros [] Hf'; cbn [failed_as] in Hf'; [| |done| |].
    - destruct Hf' as (_ & _ & ->). lia.
    - destruct Hf' as (_ & _ & _ & ->). lia.
    - destruct Hf' as (_ & _ & _ & rq' & rest' & a & Hc' & Ha). congruence.
    - destruct Hf' as (_ & (rq' & rest' & a & Hc' & Ha) & _). congruence. }
  destruct (llm (melody_request input)) as [melody|e1] eqn:H1; cycle 1.
  { intros [= <- <-]. do 2 (split; [done|]).
    eapply Hraised; [reflexivity | exact H1 | cbn; lia]. }
  destruct (llm (harmony_request _)) as [harmony|e2] eqn:H2; cycle 1.
  { intros [= <- <-]. do 2 (split; [done|]).
    eapply Hraised; [reflexivity | exact H2 | cbn; lia]. }
  destruct (llm (rhythm_request _ _)) as [rhythm|e3] eqn:H3; cycle 1.
  { intros [= <- <-]. do 2 (split; [done|]).
    eapply Hraised; [reflexivity | exact H3 | cbn; lia]. }
  destruct (inputs !! "style") as [style|] eqn:Hs; cycle 1.
  { intros [= <- <-]. do 2 (split; [done|]).
    exists NoStyle. split.
    { cbn [failed_as]. do 3 (split; [done|]). by eexists _, _, _. }
    intros [] Hf'; cbn [failed_as] in Hf'; [| | |done|].
    - by destruct Hf' as ([=] & _).
    - by destruct Hf' as ([=] & _).
    - destruct Hf' as (rq' & rest' & Hc' & Hr' & _).
      injection Hc' as <- <-. congruence.
    - destruct Hf' as (Hlen & _). cbn in Hlen. lia. }
  destruct (llm (style_request _ _ _ _)) as [composition|e4] eqn:H4; cycle 1.
  { intros [= <- <-]. do 2 (split; [done|]).
    eapply Hraised; [reflexivity | exact H4 | cbn; lia]. }
  clear Hraised.
  set (s4 := generated (restrict MusicState_fields inputs)
               melody harmony rhythm composition).
  set (w4 := log_call _ (log_call _ (log_call _ (log_call _ w)))).
  destruct (midi_converter_piece s4 (rng w4)) as [[sc|e5] g'] eqn:Hp.
  { by rewrite (midi_converter_Ok midi_write tmp_name _ _ _ _ Hp). }
  rewrite (midi_converter_Err midi_write tmp_name _ _ _ _ Hp).
  intros [= <- <-]. do 2 (split; [done|]).
  exists EncoderRaised. split.
  { cbn [failed_as]. split; [done|]. split; [by eexists _, _, _|].
    destruct (midi_converter_piece_Err _ _ _ _ Hp)
      as [[Hc _]|[[Hi _]|[(n & Hi & ->)|(s & name & _ & _ & Hin & Hf)]]].
    - unfold s4 in Hc. by rewrite generated_composition in Hc.
    - unfold s4 in Hi. rewrite generated_restrict_musician_input in Hi.
      congruence.
    - left. split; [done|]. exists n.
      unfold s4 in Hi. rewrite generated_restrict_musician_input in Hi.
      congruence.
    - right. by exists name. }
  intros [] Hf'; cbn [failed_as] in Hf'; [| | | |done].
  - destruct Hf' as (_ & _ & Hw). apply (f_equal calls) in Hw.
    apply (f_equal length) in Hw. cbn in Hw. lia.
  - destruct Hf' as (_ & _ & _ & Hw). apply (f_equal calls) in Hw.
    apply (f_equal length) in Hw. cbn in Hw. lia.
  - destruct Hf' as (rq' & rest' & Hc' & Hr' & _).
    injection Hc' as <- <-. congruence.
  - destruct Hf' as (_ & _ & Hlen & _). cbn in Hlen. lia.
Qed.

(** The statement above at a request that is a number. *)
Lemma app_failures_witness :
  exists w',
    app stub_llm stub_write stub_tmp
        {[ "musician_input" := VInt 7; "style" := VStr "Baroque" ]}
        (start [])
      = (Err (AttributeError "lower"), w') /\
    files w' = files (start []) /\
    failed_as stub_llm
      {[ "musician_input" := VInt 7; "style" := VStr "Baroque" ]}
      (start []) w' (AttributeError "lower") EncoderRaised.
Proof.
  destruct (app stub_llm stub_write stub_tmp
              {[ "musician_input" := VInt 7; "style" := VStr "Baroque" ]}
              (start [])) as [[final|e] w'] eqn:Hrun.
  - vm_compute in Hrun. discriminate Hrun.
  - destruct (app_failures _ _ _ _ _ _ _ Hrun) as (Hfiles & _ & f & Hf & Huniq).
    assert (He : e = AttributeError "lower")
      by (vm_compute in Hrun; by injection Hrun as <- _).
    subst e. exists w'. split; [reflexivity|]. split; [exact Hfiles|].
    destruct f; cbn [failed_as] in Hf; try exact Hf.
    + by destruct Hf as ([=] & _).
    + by destruct Hf as ([=] & _).
    + destruct Hf as (rq & rest & _ & Hr & _). discriminate Hr.
    + by destruct Hf as ([=] & _).
Defined.

(** X12. The requests of a run. Whatever happens, the requests a run
    sends are, in this order, some initial part of: the melody request,
    the harmony request, the rhythm request, the style request -- each at
    most once, none out of order. A completed run has sent all four. *)
Theorem app_requests {G} `{RandomGen G}
    (llm : request -> result string) (midi_write : Score -> list byte)
    (tmp_name : nat -> string -> string)
    (inputs : MusicState) (w : world G) :
  let '(r, w') := app llm midi_write tmp_name inputs w in
  exists sent,
    calls w' = (rev sent ++ calls w)%list /\
    map template sent `prefix_of` stage_templates /\
    match r with
    | Ok _ => map template sent = stage_templates
    | Err _ => True
    end.
Proof.
  rewrite app_run.
  destruct (holds_none MusicState_fields inputs).
  { lazy beta iota zeta. exists []. repeat split. apply prefix_nil. }
  destruct (inputs !! "musician_input") as [input|] eqn:Hm; cycle 1.
  { lazy beta iota zeta. exists []. repeat split. apply prefix_nil. }
  cbv zeta.
  destruct (llm (melody_request input)) as [melody|e1] eqn:H1; cycle 1.
  { lazy beta iota zeta. exists [melody_request input]. repeat split. by eexists. }
  destruct (llm (harmony_request _)) as [harmony|e2] eqn:H2; cycle 1.
  { lazy beta iota zeta. exists [melody_request input; harmony_request (VStr melody)].
    repeat split. by eexists. }
  destruct (llm (rhythm_request _ _)) as [rhythm|e3] eqn:H3; cycle 1.
  { lazy beta iota zeta. exists [melody_request input; harmony_request (VStr melody);
            rhythm_request (VStr melody) (VStr harmony)].
    repeat split. by eexists. }
  destruct (inputs !! "style") as [style|] eqn:Hs; cycle 1.
  { lazy beta iota zeta. exists [melody_request input; harmony_request (VStr melody);
            rhythm_request (VStr melody) (VStr harmony)].
    repeat split. by eexists. }
  destruct (llm (style_request _ _ _ _)) as [composition|e4] eqn:H4; cycle 1.
  { lazy beta iota zeta. exists [melody_request input; harmony_request (VStr melody);
            rhythm_request (VStr melody) (VStr harmony);
            style_request style (VStr melody) (VStr harmony) (VStr rhythm)].
    repeat split. by eexists. }
  set (s4 := generated (restrict MusicState_fields inputs)
               melody harmony rhythm composition).
  set (w4 := log_call _ (log_call _ (log_call _ (log_call _ w)))).
  destruct (midi_converter_piece s4 (rng w4)) as [[sc|e5] g'] eqn:Hp.
  - rewrite (midi_converter_Ok midi_write tmp_name _ _ _ _ Hp).
    lazy beta iota zeta.
    exists [melody_request input; harmony_request (VStr melody);
            rhythm_request (VStr melody) (VStr harmony);
            style_request style (VStr melody) (VStr harmony) (VStr rhythm)].
    repeat split. by eexists.
  - rewrite (midi_converter_Err midi_write tmp_name _ _ _ _ Hp).
    lazy beta iota zeta.
    exists [melody_request input; harmony_request (VStr melody);
            rhythm_request (VStr melody) (VStr harmony);
            style_request style (VStr melody) (VStr harmony) (VStr rhythm)].
    repeat split. by eexists.
Qed.

(** X13. The data flow of a completed run. The melody request carries the
    musician's input; the harmony request carries the answer to the melody
    request; the rhythm request the answers to both; the style request the
    style and the three answers. The final state is the declared part of
    the inputs (their entries under the fields of MusicState) with the
    four answers under melody, harmony, rhythm and composition, and under
    midi_file the path of the one file the run has created, which holds
    the bytes of the score the encoder built from that state; it holds
    nothing under a key that is no field of MusicState. The request was a
    string and the scale selected for it has a final chord. *)
Theorem app_completed {G} `{RandomGen G}
    (llm : request -> result string) (midi_write : Score -> list byte)
    (tmp_name : nat -> string -> string)
    (inputs : gmap string value) (w : world G) final w' :
  app llm midi_write tmp_name inputs w = (Ok final, w') ->
  exists s style melody harmony rhythm composition sc name,
    inputs !! "musician_input" = Some (VStr s) /\
    inputs !! "style" = Some style /\
    llm (melody_request (VStr s)) = Ok melody /\
    llm (harmony_request (VStr melody)) = Ok harmony /\
    llm (rhythm_request (VStr melody) (VStr harmony)) = Ok rhythm /\
    llm (style_request style (VStr melody) (VStr harmony) (VStr rhythm))
      = Ok composition /\
    calls w' =
      style_request style (VStr melody) (VStr harmony) (VStr rhythm) ::
      rhythm_request (VStr melody) (VStr harmony) ::
      harmony_request (VStr melody) ::
      melody_request (VStr s) :: calls w /\
    fst (select_scale (PyStr.lower s) (rng w)) = Ok name /\
    In name scales_with_chord /\
    let state := generated (restrict MusicState_fields inputs)
                   melody harmony rhythm composition in
    let path := tmp_name (tmp_count w) ".mid" in
    fst (midi_converter_piece state (rng w)) = Ok sc /\
    final = <["midi_file" := VStr path]> state /\
    (forall k, k ∉ MusicState_fields -> final !! k = None) /\
    files w' = <[path := midi_write sc]> (files w) /\
    tmp_count w' = S (tmp_count w).
Proof.
  rewrite app_run.
  destruct (holds_none MusicState_fields inputs); [done|].
  destruct (inputs !! "musician_input") as [input|] eqn:Hm; [|done].
  cbv zeta.
  destruct (llm (melody_request input)) as [melody|e1] eqn:H1; [|done].
  destruct (llm (harmony_request _)) as [harmony|e2] eqn:H2; [|done].
  destruct (llm (rhythm_request _ _)) as [rhythm|e3] eqn:H3; [|done].
  destruct (inputs !! "style") as [style|] eqn:Hs; [|done].
  destruct (llm (style_request _ _ _ _)) as [composition|e4] eqn:H4; [|done].
  set (s4 := generated (restrict MusicState_fields inputs)
               melody harmony rhythm composition).
  set (w4 := log_call _ (log_call _ (log_call _ (log_call _ w)))).
  destruct (midi_converter_piece s4 (rng w4)) as [[sc|e5] g'] eqn:Hp; cycle 1.
  { by rewrite (midi_converter_Err midi_write tmp_name _ _ _ _ Hp). }
  rewrite (midi_converter_Ok midi_write tmp_name _ _ _ _ Hp). cbv zeta.
  intros [= <- <-].
  destruct (midi_converter_piece_inv _ _ _ _ Hp)
    as (content & s & name & g1 & rest & notes & cs & pitches &
        _ & Hi & Hsel & _ & Hf & _).
  unfold s4 in Hi. rewrite generated_restrict_musician_input, Hm in Hi.
  injection Hi as ->.
  destruct (final_chord_found name pitches (select_scale_In _ _ _ _ Hsel) Hf)
    as (Hin & _).
  exists s, style, melody, harmony, rhythm, composition, sc, name.
  do 7 (split; [done|]).
  split; [change (rng w) with (rng w4); by rewrite Hsel|].
  split; [exact Hin|]. cbv zeta. fold s4.
  split; [change (rng w) with (rng w4); by rewrite Hp|].
  split; [by rewrite <- insert_union_singleton_l|].
  split.
  { intros k Hk. rewrite <- insert_union_singleton_l.
    assert (Hne : forall j, j ∈ MusicState_fields -> k <> j)
      by (intros j Hj ->; done).
    unfold s4, generated.
    rewrite !lookup_insert_ne by (apply not_eq_sym, Hne; in_list).
    rewrite restrict_lookup. by rewrite bool_decide_eq_false_2. }
  cbn [files tmp_count]. by rewrite insert_insert_eq.
Qed.

(** X14. When a run completes. If the request is a string, a style is
    given, the chat model answers the four requests of the chain, and the
    scale selected for the request is 'C major', 'C minor' or
    'C diminished', then the run completes and the final state has under
    midi_file the path of the next temporary file. *)
Theorem app_completes {G} `{RandomGen G}
    (llm : request -> result string) (midi_write : Score -> list byte)
    (tmp_name : nat -> string -> string)
    (inputs : MusicState) (w : world G)
    s style melody harmony rhythm composition name :
  inputs !! "musician_input" = Some (VStr s) ->
  inputs !! "style" = Some style ->
  llm (melody_request (VStr s)) = Ok melody ->
  llm (harmony_request (VStr melody)) = Ok harmony ->
  llm (rhythm_request (VStr melody) (VStr harmony)) = Ok rhythm ->
  llm (style_request style (VStr melody) (VStr harmony) (VStr rhythm))
    = Ok composition ->
  fst (select_scale (PyStr.lower s) (rng w)) = Ok name ->
  In name scales_with_chord ->
  exists final w',
    app llm midi_write tmp_name inputs w = (Ok final, w') /\
    final !! "midi_file" = Some (VStr (tmp_name (tmp_count w) ".mid")) /\
    is_Some (files w' !! tmp_name (tmp_count w) ".mid").
Proof.
  intros Hm Hs H1 H2 H3 H4 Hsel Hin.
  rewrite app_run.
  rewrite (holds_none_false MusicState_fields inputs "musician_input" _)
    by (in_list || exact Hm).
  rewrite Hm. cbv zeta. rewrite H1, H2, H3, Hs, H4.
  set (s4 := generated (restrict MusicState_fields inputs)
               melody harmony rhythm composition).
  set (w4 := log_call _ (log_call _ (log_call _ (log_call _ w)))).
  destruct (select_scale (PyStr.lower s) (rng w)) as [r g1] eqn:Hsel'.
  simpl in Hsel. subst r.
  assert (exists pitches, final_chord_lookup name = Ok pitches)
    as [pitches Hf].
  { simpl in Hin.
    destruct Hin as [<-|[<-|[<-|[]]]]; by eexists. }
  destruct (midi_converter_piece_total s4 (VStr composition) s (rng w4)
              name g1 pitches) as (sc & g' & Hp);
    [apply generated_composition
    |by unfold s4; rewrite generated_restrict_musician_input
    |exact Hsel' | exact Hf |].
  rewrite (midi_converter_Ok midi_write tmp_name _ _ _ _ Hp). cbv zeta.
  eexists _, _. split; [reflexivity|]. split.
  - rewrite <- insert_union_singleton_l. apply lookup_insert_eq.
  - cbn [files tmp_count]. rewrite lookup_insert_eq. by eexists.
Qed.

(** The statement above at the notebook's inputs. *)
Lemma app_completes_witness :
  exists final w',
    app stub_llm stub_write stub_tmp notebook_inputs (start [])
      = (Ok final, w') /\
    final !! "midi_file" = Some (VStr "/tmp/tmp.mid").
Proof.
  edestruct (app_completes stub_llm stub_write stub_tmp notebook_inputs
               (start []) "Create a happy piano piece in C major"
               (VStr "Romantic era"))
    as (final & w' & Hrun & Hfile & _).
  - vm_compute. reflexivity.
  - vm_compute. reflexivity.
  - reflexivity.
  - reflexivity.
  - reflexivity.
  - reflexivity.
  - reflexivity.
  - simpl. tauto.
  - exists final, w'. split; [exact Hrun | exact Hfile].
Defined.

(** The statement of X13 at the same run, the inputs holding one more
    entry under a key that is no field of MusicState. *)
Lemma app_completed_witness :
  exists final w',
    app stub_llm stub_write stub_tmp
        (<["tempo" := VInt 90]> notebook_inputs) (start [])
      = (Ok final, w') /\
    length (calls w') = 4%nat /\ tmp_count w' = 1%nat /\
    final !! "tempo" = None.
Proof.
  destruct (stream_workflow_total stub_llm stub_write stub_tmp
              (<["tempo" := VInt 90]> notebook_inputs)
              "Create a happy piano piece in C major"
              (VStr "Romantic era") (start []))
    as (chunks & w' & Hstream).
  { vm_compute. reflexivity. }
  { vm_compute. reflexivity. }
  { intros rq. eexists. reflexivity. }
  { vm_compute. reflexivity. }
  assert (Hrun : app stub_llm stub_write stub_tmp
                     (<["tempo" := VInt 90]> notebook_inputs) (start [])
                 = (Ok (List.last chunks
                          (<["tempo" := VInt 90]> notebook_inputs)), w')).
  { unfold app, invoke. by rewrite (bind_Ok _ _ _ _ _ Hstream). }
  destruct (app_completed _ _ _ _ _ _ _ Hrun)
    as (s & style & melody & harmony & rhythm & composition & sc & name &
        _ & _ & _ & _ & _ & _ & Hcalls & _ & _ & _ & _ & Hdrop & _ & Htmp).
  eexists _, w'. split; [exact Hrun|]. split; [by rewrite Hcalls|].
  split; [exact Htmp|]. apply Hdrop.
  intros Hk. apply list_elem_of_In in Hk. simpl in Hk.
  repeat destruct Hk as [Hk|Hk]; try discriminate Hk. exact Hk.
Defined.

(** X15. Values the caller puts under the keys the stages write are
    ignored, as long as the inputs hold a field of MusicState without
    them: a run on such inputs that also hold a melody, harmony, rhythm,
    composition or midi_file does exactly what the run without that entry
    does, and returns the same final state. For inputs that hold no field
    of MusicState the entry does make a difference: without it the graph
    rejects the inputs with [InvalidUpdateError], with it the run gets to
    the first stage and ends there with [KeyError] 'musician_input'. *)
Theorem app_ignores_stage_keys {G} `{RandomGen G}
    (llm : request -> result string) (midi_write : Score -> list byte)
    (tmp_name : nat -> string -> string)
    (inputs : gmap string value) (w : world G) (k : string) (v : value) :
  In k stage_keys ->
  ((exists k', k' ∈ MusicState_fields /\ is_Some (inputs !! k')) ->
   app llm midi_write tmp_name (<[k := v]> inputs) w
   = app llm midi_write tmp_name inputs w) /\
  ((forall k', k' ∈ MusicState_fields -> inputs !! k' = None) ->
   app llm midi_write tmp_name inputs w = (Err InvalidUpdateError, w) /\
   app llm midi_write tmp_name (<[k := v]> inputs) w
   = (Err (KeyError "musician_input"), w)).
Proof.
  intros Hk.
  assert (Hmi : k <> "musician_input")
    by (intros ->; simpl in Hk; intuition discriminate).
  assert (Hst : k <> "style")
    by (intros ->; simpl in Hk; intuition discriminate).
  assert (Hfield : k ∈ MusicState_fields)
    by (apply stage_keys_fields; by apply list_elem_of_In).
  assert (Hnone' : holds_none MusicState_fields (<[k := v]> inputs) = false)
    by (apply (holds_none_false _ _ k v Hfield); apply lookup_insert_eq).
  split; cycle 1.
  { intros Hnone. rewrite !app_run, Hnone'.
    rewrite (proj2 (holds_none_true _ _) Hnone). split; [done|].
    rewrite lookup_insert_ne by done.
    by rewrite (Hnone "musician_input") by in_list. }
  intros (k' & Hk' & [v' Hv']).
  rewrite !app_run, Hnone', (holds_none_false _ _ k' v' Hk' Hv').
  rewrite !lookup_insert_ne by done.
  destruct (inputs !! "musician_input") as [input|]; [|done]. cbv zeta.
  destruct (llm (melody_request input)) as [melody|e1]; [|done].
  destruct (llm (harmony_request _)) as [harmony|e2]; [|done].
  destruct (llm (rhythm_request _ _)) as [rhythm|e3]; [|done].
  destruct (inputs !! "style") as [style|]; [|done].
  destruct (llm (style_request _ _ _ _)) as [composition|e4]; [|done].
  set (w4 := log_call _ (log_call _ (log_call _ (log_call _ w)))).
  rewrite (restrict_insert _ k v inputs Hfield).
  set (s0 := restrict MusicState_fields inputs).
  set (s4 := generated s0 melody harmony rhythm composition).
  set (s4' := generated (<[k := v]> s0) melody harmony rhythm composition).
  assert (Hext : midi_converter_piece s4' (rng w4)
                 = midi_converter_piece s4 (rng w4)).
  { apply midi_converter_piece_ext; unfold s4, s4';
      rewrite ?generated_composition, ?generated_musician_input;
      [done | by rewrite lookup_insert_ne]. }
  assert (Hmerge : forall path,
             ({[ "midi_file" := VStr path ]} : MusicState) ∪ s4'
             = {[ "midi_file" := VStr path ]} ∪ s4).
  { intros path. rewrite <- !insert_union_singleton_l.
    apply map_eq. intros j. unfold s4, s4', generated.
    simpl in Hk.
    destruct Hk as [<-|[<-|[<-|[<-|[<-|[]]]]]];
      rewrite !lookup_insert; repeat case_decide; congruence. }
  destruct (midi_converter_piece s4 (rng w4)) as [[sc|e5] g'] eqn:Hp.
  - rewrite (midi_converter_Ok midi_write tmp_name s4' _ sc g')
      by (by rewrite Hext).
    rewrite (midi_converter_Ok midi_write tmp_name s4 _ sc g' Hp).
    cbv zeta. by rewrite Hmerge.
  - rewrite (midi_converter_Err midi_write tmp_name s4' _ e5 g')
      by (by rewrite Hext).
    by rewrite (midi_converter_Err midi_write tmp_name s4 _ e5 g' Hp).
Qed.

(** The statement above at a caller-supplied melody, with the notebook's
    inputs and with none. *)
Lemma app_ignores_stage_keys_witness :
  app stub_llm stub_write stub_tmp
      (<["melody" := VStr "my own tune"]> notebook_inputs) (start [])
  = app stub_llm stub_write stub_tmp notebook_inputs (start []) /\
  app stub_llm stub_write stub_tmp ∅ (start [])
  = (Err InvalidUpdateError, start []) /\
  app stub_llm stub_write stub_tmp
      (<["melody" := VStr "my own tune"]> ∅) (start [])
  = (Err (KeyError "musician_input"), start []).
Proof.
  assert (Hk : In "melody" stage_keys) by (simpl; tauto).
  assert (Hsome : exists k', k' ∈ MusicState_fields /\
                             is_Some (notebook_inputs !! k')).
  { exists "style". split; [in_list|]. vm_compute. by eexists. }
  assert (Hnone : forall k', k' ∈ MusicState_fields ->
                             (∅ : gmap string value) !! k' = None)
    by (intros k' _; apply lookup_empty).
  split.
  - exact (proj1 (app_ignores_stage_keys stub_llm stub_write stub_tmp
                    notebook_inputs (start []) "melody"
                    (VStr "my own tune") Hk) Hsome).
  - exact (proj2 (app_ignores_stage_keys stub_llm stub_write stub_tmp
                    ∅ (start []) "melody" (VStr "my own tune") Hk) Hnone).
Defined.
